(** * Sey-go travel guide: administrative backend

    A shallow embedding of [server/storage.ts] (the data access layer,
    class [DatabaseStorage]) and of the route registration module (the
    request handlers and [seedDatabase]), together with the properties
    the specification states about them.

    Layout:
    - the entity records of the schema module,
    - the relational store and the query builders the storage class calls,
    - a small promise monad: asynchronous calls that resolve or reject,
    - the methods of [DatabaseStorage], in source order,
    - the handlers and the seeding routine,
    - the vocabulary of the properties and sample data,
    - the properties the specification states, with the binary64
      arithmetic behind the mocked activity series,
    - further properties of the storage class and the routes: how reads,
      writes, outages and seeding compose. *)

From Stdlib Require Import ZArith List String Bool Lia Permutation.
From Stdlib Require Import Floats.SpecFloat.
Import ListNotations.

Local Open Scope string_scope.
Local Open Scope Z_scope.

Set Implicit Arguments.

(* ================================================================== *)
(** * Entities *)
(* ================================================================== *)

(** Modelled from the spec: the schema module ([@shared/schema]) is not
    among the sources.  The columns are those of the data model table;
    an insert record is the stored row without its generated fields (the
    identifier and the creation stamp).  Identifiers and stamps are
    integers, ratings are kept as text the way the seed data writes
    them. *)

Record User := {
  user_id : Z;
  user_name : string;
  user_email : string;
  user_role : string;
  user_status : string;
  user_joinedAt : Z
}.

Record InsertUser := {
  new_user_name : string;
  new_user_email : string;
  new_user_role : string;
  new_user_status : string
}.

Record Place := {
  place_id : Z;
  place_name : string;
  place_description : string;
  place_location : string;
  place_category : string;
  place_imageUrl : string;
  place_rating : string;
  place_status : string;
  place_amenities : string;
  place_coordinates : string;
  place_createdAt : Z
}.

Record InsertPlace := {
  new_place_name : string;
  new_place_description : string;
  new_place_location : string;
  new_place_category : string;
  new_place_imageUrl : string;
  new_place_rating : string;
  new_place_status : string;
  new_place_amenities : string;
  new_place_coordinates : string
}.

Record Playlist := {
  playlist_id : Z;
  playlist_name : string;
  playlist_description : string;
  playlist_creatorId : Z;
  playlist_creatorName : string;
  playlist_status : string;
  playlist_placesCount : Z;
  playlist_isFeatured : bool;
  playlist_visibility : string;
  playlist_createdAt : Z
}.

Record InsertPlaylist := {
  new_playlist_name : string;
  new_playlist_description : string;
  new_playlist_creatorId : Z;
  new_playlist_creatorName : string;
  new_playlist_status : string;
  new_playlist_placesCount : Z;
  new_playlist_isFeatured : bool;
  new_playlist_visibility : string
}.

Record Trip := {
  trip_id : Z;
  trip_userId : Z;
  trip_destination : string;
  trip_status : string
}.

Record InsertTrip := {
  new_trip_userId : Z;
  new_trip_destination : string;
  new_trip_status : string
}.

Record Review := {
  review_id : Z;
  review_userId : Z;
  review_userName : string;
  review_placeId : Z;
  review_placeName : string;
  review_content : string;
  review_rating : string;
  review_status : string;
  review_createdAt : Z
}.

Record InsertReview := {
  new_review_userId : Z;
  new_review_userName : string;
  new_review_placeId : Z;
  new_review_placeName : string;
  new_review_content : string;
  new_review_rating : string;
  new_review_status : string
}.

Record Photo := {
  photo_id : Z;
  photo_uploaderId : Z;
  photo_uploaderName : string;
  photo_url : string;
  photo_caption : string;
  photo_relatedType : string;
  photo_relatedId : Z;
  photo_status : string;
  photo_createdAt : Z
}.

Record InsertPhoto := {
  new_photo_uploaderId : Z;
  new_photo_uploaderName : string;
  new_photo_url : string;
  new_photo_caption : string;
  new_photo_relatedType : string;
  new_photo_relatedId : Z;
  new_photo_status : string
}.

(** The row an insert stores: the caller's fields, the identifier drawn
    from the table's sequence and the data store's clock reading. *)

Definition stored_user (id now : Z) (u : InsertUser) : User :=
  {| user_id := id;
     user_name := new_user_name u;
     user_email := new_user_email u;
     user_role := new_user_role u;
     user_status := new_user_status u;
     user_joinedAt := now |}.

Definition stored_place (id now : Z) (p : InsertPlace) : Place :=
  {| place_id := id;
     place_name := new_place_name p;
     place_description := new_place_description p;
     place_location := new_place_location p;
     place_category := new_place_category p;
     place_imageUrl := new_place_imageUrl p;
     place_rating := new_place_rating p;
     place_status := new_place_status p;
     place_amenities := new_place_amenities p;
     place_coordinates := new_place_coordinates p;
     place_createdAt := now |}.

Definition stored_playlist (id now : Z) (p : InsertPlaylist) : Playlist :=
  {| playlist_id := id;
     playlist_name := new_playlist_name p;
     playlist_description := new_playlist_description p;
     playlist_creatorId := new_playlist_creatorId p;
     playlist_creatorName := new_playlist_creatorName p;
     playlist_status := new_playlist_status p;
     playlist_placesCount := new_playlist_placesCount p;
     playlist_isFeatured := new_playlist_isFeatured p;
     playlist_visibility := new_playlist_visibility p;
     playlist_createdAt := now |}.

Definition stored_trip (id now : Z) (t : InsertTrip) : Trip :=
  {| trip_id := id;
     trip_userId := new_trip_userId t;
     trip_destination := new_trip_destination t;
     trip_status := new_trip_status t |}.

Definition stored_review (id now : Z) (r : InsertReview) : Review :=
  {| review_id := id;
     review_userId := new_review_userId r;
     review_userName := new_review_userName r;
     review_placeId := new_review_placeId r;
     review_placeName := new_review_placeName r;
     review_content := new_review_content r;
     review_rating := new_review_rating r;
     review_status := new_review_status r;
     review_createdAt := now |}.

Definition stored_photo (id now : Z) (p : InsertPhoto) : Photo :=
  {| photo_id := id;
     photo_uploaderId := new_photo_uploaderId p;
     photo_uploaderName := new_photo_uploaderName p;
     photo_url := new_photo_url p;
     photo_caption := new_photo_caption p;
     photo_relatedType := new_photo_relatedType p;
     photo_relatedId := new_photo_relatedId p;
     photo_status := new_photo_status p;
     photo_createdAt := now |}.

(** [set({ status })]: the one column an update-status call assigns. *)

Definition set_user_status (status : string) (u : User) : User :=
  {| user_id := user_id u;
     user_name := user_name u;
     user_email := user_email u;
     user_role := user_role u;
     user_status := status;
     user_joinedAt := user_joinedAt u |}.

Definition set_playlist_status (status : string) (p : Playlist) : Playlist :=
  {| playlist_id := playlist_id p;
     playlist_name := playlist_name p;
     playlist_description := playlist_description p;
     playlist_creatorId := playlist_creatorId p;
     playlist_creatorName := playlist_creatorName p;
     playlist_status := status;
     playlist_placesCount := playlist_placesCount p;
     playlist_isFeatured := playlist_isFeatured p;
     playlist_visibility := playlist_visibility p;
     playlist_createdAt := playlist_createdAt p |}.

Definition set_review_status (status : string) (r : Review) : Review :=
  {| review_id := review_id r;
     review_userId := review_userId r;
     review_userName := review_userName r;
     review_placeId := review_placeId r;
     review_placeName := review_placeName r;
     review_content := review_content r;
     review_rating := review_rating r;
     review_status := status;
     review_createdAt := review_createdAt r |}.

Definition set_photo_status (status : string) (p : Photo) : Photo :=
  {| photo_id := photo_id p;
     photo_uploaderId := photo_uploaderId p;
     photo_uploaderName := photo_uploaderName p;
     photo_url := photo_url p;
     photo_caption := photo_caption p;
     photo_relatedType := photo_relatedType p;
     photo_relatedId := photo_relatedId p;
     photo_status := status;
     photo_createdAt := photo_createdAt p |}.

(** [Partial<InsertPlace>]: the caller-supplied columns of a place, each
    one optional. *)
Record PartialInsertPlace := {
  partial_place_name : option string;
  partial_place_description : option string;
  partial_place_location : option string;
  partial_place_category : option string;
  partial_place_imageUrl : option string;
  partial_place_rating : option string;
  partial_place_status : option string;
  partial_place_amenities : option string;
  partial_place_coordinates : option string
}.

(** A column keeps its value unless the partial record supplies one. *)
Definition supplied_or {A} (supplied : option A) (current : A) : A :=
  match supplied with
  | Some v => v
  | None => current
  end.

(** [set(updates)]: the supplied columns are assigned, the identifier and
    the creation stamp are not among them. *)
Definition set_place_columns (updates : PartialInsertPlace) (p : Place) : Place :=
  {| place_id := place_id p;
     place_name := supplied_or (partial_place_name updates) (place_name p);
     place_description :=
       supplied_or (partial_place_description updates) (place_description p);
     place_location :=
       supplied_or (partial_place_location updates) (place_location p);
     place_category :=
       supplied_or (partial_place_category updates) (place_category p);
     place_imageUrl :=
       supplied_or (partial_place_imageUrl updates) (place_imageUrl p);
     place_rating := supplied_or (partial_place_rating updates) (place_rating p);
     place_status := supplied_or (partial_place_status updates) (place_status p);
     place_amenities :=
       supplied_or (partial_place_amenities updates) (place_amenities p);
     place_coordinates :=
       supplied_or (partial_place_coordinates updates) (place_coordinates p);
     place_createdAt := place_createdAt p |}.

Definition is_supplied {A} (o : option A) : bool :=
  match o with
  | Some _ => true
  | None => false
  end.

(** A partial record that supplies no column at all. *)
Definition supplies_nothing (updates : PartialInsertPlace) : bool :=
  negb (is_supplied (partial_place_name updates)
        || is_supplied (partial_place_description updates)
        || is_supplied (partial_place_location updates)
        || is_supplied (partial_place_category updates)
        || is_supplied (partial_place_imageUrl updates)
        || is_supplied (partial_place_rating updates)
        || is_supplied (partial_place_status updates)
        || is_supplied (partial_place_amenities updates)
        || is_supplied (partial_place_coordinates updates)).

(* ================================================================== *)
(** * The relational store *)
(* ================================================================== *)

(** Modelled from the spec: the connection module ([./db]) and the table
    objects of the schema module are not among the sources.  The store
    is relational: a table keeps its rows in insertion order next to the
    sequence that generates identifiers, so an identifier is assigned
    once and a deleted one is never handed out again. *)

Record Table (R : Type) := {
  rows : list R;
  next_id : Z
}.

Definition empty_table (R : Type) : Table R :=
  {| rows := []; next_id := 1 |}.

Record Store := {
  tbl_users : Table User;
  tbl_places : Table Place;
  tbl_playlists : Table Playlist;
  tbl_trips : Table Trip;
  tbl_reviews : Table Review;
  tbl_photos : Table Photo
}.

Definition empty_store : Store :=
  {| tbl_users := empty_table User;
     tbl_places := empty_table Place;
     tbl_playlists := empty_table Playlist;
     tbl_trips := empty_table Trip;
     tbl_reviews := empty_table Review;
     tbl_photos := empty_table Photo |}.

(** What the storage class imports from the schema as [users], [places],
    ...: a handle on one table of the store, with its primary key and
    the way an insert record becomes a row. *)

Record TableRef (R I : Type) := {
  read : Store -> Table R;
  write : Table R -> Store -> Store;
  pk : R -> Z;
  populate : Z -> Z -> I -> R
}.

Definition users : TableRef User InsertUser :=
  {| read := tbl_users;
     write := fun t s =>
       {| tbl_users := t; tbl_places := tbl_places s;
          tbl_playlists := tbl_playlists s; tbl_trips := tbl_trips s;
          tbl_reviews := tbl_reviews s; tbl_photos := tbl_photos s |};
     pk := user_id;
     populate := stored_user |}.

Definition places : TableRef Place InsertPlace :=
  {| read := tbl_places;
     write := fun t s =>
       {| tbl_users := tbl_users s; tbl_places := t;
          tbl_playlists := tbl_playlists s; tbl_trips := tbl_trips s;
          tbl_reviews := tbl_reviews s; tbl_photos := tbl_photos s |};
     pk := place_id;
     populate := stored_place |}.

Definition playlists : TableRef Playlist InsertPlaylist :=
  {| read := tbl_playlists;
     write := fun t s =>
       {| tbl_users := tbl_users s; tbl_places := tbl_places s;
          tbl_playlists := t; tbl_trips := tbl_trips s;
          tbl_reviews := tbl_reviews s; tbl_photos := tbl_photos s |};
     pk := playlist_id;
     populate := stored_playlist |}.

Definition trips : TableRef Trip InsertTrip :=
  {| read := tbl_trips;
     write := fun t s =>
       {| tbl_users := tbl_users s; tbl_places := tbl_places s;
          tbl_playlists := tbl_playlists s; tbl_trips := t;
          tbl_reviews := tbl_reviews s; tbl_photos := tbl_photos s |};
     pk := trip_id;
     populate := stored_trip |}.

Definition reviews : TableRef Review InsertReview :=
  {| read := tbl_reviews;
     write := fun t s =>
       {| tbl_users := tbl_users s; tbl_places := tbl_places s;
          tbl_playlists := tbl_playlists s; tbl_trips := tbl_trips s;
          tbl_reviews := t; tbl_photos := tbl_photos s |};
     pk := review_id;
     populate := stored_review |}.

Definition photos : TableRef Photo InsertPhoto :=
  {| read := tbl_photos;
     write := fun t s =>
       {| tbl_users := tbl_users s; tbl_places := tbl_places s;
          tbl_playlists := tbl_playlists s; tbl_trips := tbl_trips s;
          tbl_reviews := tbl_reviews s; tbl_photos := t |};
     pk := photo_id;
     populate := stored_photo |}.

(** ** Query builders

    The chains of the query builder library the storage class uses, with
    their relational meaning. *)

Section Queries.
Variables R I : Type.
Variable t : TableRef R I.

(** [eq(table.id, id)] *)
Definition eq_id (id : Z) (r : R) : bool := pk t r =? id.

(** [db.select().from(table)] *)
Definition select_from (s : Store) : list R := rows (read t s).

(** [db.select().from(table).where(cond)] *)
Definition select_where (cond : R -> bool) (s : Store) : list R :=
  filter cond (rows (read t s)).

(** [db.insert(table).values(v).returning()]: one row is appended and
    comes back as the only element of the result. *)
Definition insert_returning (v : I) (now : Z) (s : Store) : list R * Store :=
  let tb := read t s in
  let r := populate t (next_id tb) now v in
  ([r], write t {| rows := rows tb ++ [r]; next_id := next_id tb + 1 |} s).

(** [db.update(table).set(f).where(cond).returning()]: every matching
    row is rewritten in place; the rewritten rows come back. *)
Definition update_where_returning (f : R -> R) (cond : R -> bool) (s : Store)
  : list R * Store :=
  let tb := read t s in
  (map f (filter cond (rows tb)),
   write t {| rows := map (fun r => if cond r then f r else r) (rows tb);
              next_id := next_id tb |} s).

(** [db.delete(table).where(cond)] *)
Definition delete_where (cond : R -> bool) (s : Store) : Store :=
  let tb := read t s in
  write t {| rows := filter (fun r => negb (cond r)) (rows tb);
             next_id := next_id tb |} s.
End Queries.

(** [orderBy(desc(column))]: latest first.  Rows with equal stamps come in
    an order the data store is free to choose; a stable insertion sort
    fixes one such order. *)

Section OrderBy.
Variable R : Type.
Variable column : R -> Z.

Fixpoint insert_desc (r : R) (l : list R) : list R :=
  match l with
  | [] => [r]
  | x :: rest =>
      if column x <? column r then r :: x :: rest
      else x :: insert_desc r rest
  end.

Fixpoint orderBy_desc (l : list R) : list R :=
  match l with
  | [] => []
  | r :: rest => insert_desc r (orderBy_desc rest)
  end.
End OrderBy.

(* ================================================================== *)
(** * Promises *)
(* ================================================================== *)

(** What a [catch] clause can receive. *)

Record ZodIssue := {
  issue_path : list string;
  issue_message : string
}.

Inductive Exception :=
| StoreFailure            (* the data store or the transport failed *)
| TypeError               (* property access on [undefined] *)
| ZodError (errors : list ZodIssue).

(** The world an asynchronous call runs in: the store, the clock of the
    data store, and the outages still to come, one flag per round trip
    ([true]: that round trip fails).  With no flag left the store is
    reachable. *)

Record World := {
  store : Store;
  clock : Z;
  outages : list bool
}.

Definition healthy (s : Store) (now : Z) : World :=
  {| store := s; clock := now; outages := [] |}.

Inductive Settled (A : Type) :=
| Resolved (a : A)
| Rejected (e : Exception).

Arguments Rejected {A} e.

Definition Promise (A : Type) := World -> Settled A * World.

Definition resolve {A} (a : A) : Promise A := fun w => (Resolved a, w).

Definition throw {A} (e : Exception) : Promise A := fun w => (Rejected e, w).

(** [const x = await p; k x] *)
Definition await {A B} (p : Promise A) (k : A -> Promise B) : Promise B :=
  fun w =>
    match p w with
    | (Resolved a, w') => k a w'
    | (Rejected e, w') => (Rejected e, w')
    end.

(** [try { p } catch (err) { handler err }] *)
Definition try_catch {A} (p : Promise A) (handler : Exception -> Promise A)
  : Promise A :=
  fun w =>
    match p w with
    | (Resolved a, w') => (Resolved a, w')
    | (Rejected e, w') => handler e w'
    end.

Declare Scope promise_scope.
Delimit Scope promise_scope with promise.
Notation "x <- p ;; k" := (await p (fun x => k))
  (at level 61, p at next level, right associativity) : promise_scope.
Notation "p ;; k" := (await p (fun _ => k))
  (at level 61, right associativity) : promise_scope.
Local Open Scope promise_scope.

(** One round trip to the data store: it consumes the next outage flag,
    and when the store is reachable runs the query on it. *)
Definition round_trip {A} (q : Z -> Store -> A * Store) : Promise A :=
  fun w =>
    match outages w with
    | true :: later =>
        (Rejected StoreFailure,
         {| store := store w; clock := clock w; outages := later |})
    | false :: later =>
        let (a, s') := q (clock w) (store w) in
        (Resolved a, {| store := s'; clock := clock w; outages := later |})
    | [] =>
        let (a, s') := q (clock w) (store w) in
        (Resolved a, {| store := s'; clock := clock w; outages := [] |})
    end.

(** A read-only query and a statement without result, as round trips. *)
Definition query {A} (q : Store -> A) : Promise A :=
  round_trip (fun _ s => (q s, s)).

Definition execute (q : Store -> Store) : Promise unit :=
  round_trip (fun _ s => (tt, q s)).

(** [const [x] = xs]: the first element, [undefined] when there is none. *)
Definition first {A} (xs : list A) : option A :=
  match xs with
  | [] => None
  | x :: _ => Some x
  end.

(* ================================================================== *)
(** * DatabaseStorage *)
(* ================================================================== *)

(** A method declared to return a row returns [const [row] = ...]; at run
    time that is the row or [undefined], hence [option]. *)

(* Users *)
Definition getUsers : Promise (list User) :=
  query (fun s => orderBy_desc user_joinedAt (select_from users s)).

Definition getUser (id : Z) : Promise (option User) :=
  found <- query (select_where users (eq_id users id)) ;;
  resolve (first found).

Definition createUser (user : InsertUser) : Promise (option User) :=
  inserted <- round_trip (insert_returning users user) ;;
  resolve (first inserted).

Definition updateUserStatus (id : Z) (status : string) : Promise (option User) :=
  updated <- round_trip (fun _ =>
    update_where_returning users (set_user_status status) (eq_id users id)) ;;
  resolve (first updated).

Definition deleteUser (id : Z) : Promise unit :=
  execute (delete_where users (eq_id users id)).

(* Places *)
Definition getPlaces : Promise (list Place) :=
  query (fun s => orderBy_desc place_createdAt (select_from places s)).

Definition getPlace (id : Z) : Promise (option Place) :=
  found <- query (select_where places (eq_id places id)) ;;
  resolve (first found).

Definition createPlace (place : InsertPlace) : Promise (option Place) :=
  inserted <- round_trip (insert_returning places place) ;;
  resolve (first inserted).

(** An update statement with no column to set never reaches a row: the
    data layer refuses it, and the refusal reaches the caller like any
    other failure of the data layer. *)
Definition updatePlace (id : Z) (updates : PartialInsertPlace)
  : Promise (option Place) :=
  if supplies_nothing updates then throw StoreFailure
  else
    updated <- round_trip (fun _ =>
      update_where_returning places (set_place_columns updates)
        (eq_id places id)) ;;
    resolve (first updated).

Definition deletePlace (id : Z) : Promise unit :=
  execute (delete_where places (eq_id places id)).

(* Playlists *)
Definition getPlaylists : Promise (list Playlist) :=
  query (fun s => orderBy_desc playlist_createdAt (select_from playlists s)).

Definition createPlaylist (playlist : InsertPlaylist) : Promise (option Playlist) :=
  inserted <- round_trip (insert_returning playlists playlist) ;;
  resolve (first inserted).

Definition updatePlaylistStatus (id : Z) (status : string)
  : Promise (option Playlist) :=
  updated <- round_trip (fun _ =>
    update_where_returning playlists (set_playlist_status status)
      (eq_id playlists id)) ;;
  resolve (first updated).

(* Trips *)
Definition getTrips : Promise (list Trip) :=
  query (select_from trips).

Definition createTrip (trip : InsertTrip) : Promise (option Trip) :=
  inserted <- round_trip (insert_returning trips trip) ;;
  resolve (first inserted).

(* Reviews *)
Definition getReviews : Promise (list Review) :=
  query (fun s => orderBy_desc review_createdAt (select_from reviews s)).

Definition createReview (review : InsertReview) : Promise (option Review) :=
  inserted <- round_trip (insert_returning reviews review) ;;
  resolve (first inserted).

Definition updateReviewStatus (id : Z) (status : string)
  : Promise (option Review) :=
  updated <- round_trip (fun _ =>
    update_where_returning reviews (set_review_status status)
      (eq_id reviews id)) ;;
  resolve (first updated).

(* Photos *)
Definition getPhotos : Promise (list Photo) :=
  query (fun s => orderBy_desc photo_createdAt (select_from photos s)).

Definition createPhoto (photo : InsertPhoto) : Promise (option Photo) :=
  inserted <- round_trip (insert_returning photos photo) ;;
  resolve (first inserted).

Definition updatePhotoStatus (id : Z) (status : string)
  : Promise (option Photo) :=
  updated <- round_trip (fun _ =>
    update_where_returning photos (set_photo_status status)
      (eq_id photos id)) ;;
  resolve (first updated).

(* Stats *)
Record StatsResponse := {
  totalTrips : nat;
  totalPlaylists : nat;
  totalPlaces : nat;
  activeUsers : nat;
  pendingReviews : nat
}.

Definition getDashboardStats : Promise StatsResponse :=
  allTrips <- getTrips ;;
  allPlaylists <- getPlaylists ;;
  allPlaces <- getPlaces ;;
  allUsers <- getUsers ;;
  allReviews <- getReviews ;;
  resolve
    {| totalTrips := List.length allTrips;
       totalPlaylists := List.length allPlaylists;
       totalPlaces := List.length allPlaces;
       activeUsers :=
         List.length (filter (fun u => user_status u =? "active")%string allUsers);
       pendingReviews :=
         List.length (filter (fun r => review_status r =? "pending")%string allReviews) |}.

(** ** The mocked activity series *)

(** JavaScript numbers are IEEE 754 binary64 values. *)
Definition number := spec_float.
Definition prec : Z := 53.
Definition emax : Z := 1024.

(** The number an integer literal denotes. *)
Definition number_of_Z (k : Z) : number := binary_normalize prec emax k 0 false.

(** The number the decimal literal [digits * 10^-scale] denotes. *)
Definition number_of_decimal (digits : Z) (scale : Z) : number :=
  SFdiv prec emax (number_of_Z digits) (number_of_Z (10 ^ scale)).

(** [Math.floor]: the largest integral number not above the argument;
    zeros, infinities and NaN come back as they are. *)
Definition Math_floor (x : number) : number :=
  match x with
  | S754_finite s m e =>
      if 0 <=? e then x
      else
        let q := Z.pos m / 2 ^ (- e) in
        if s then
          number_of_Z (- (if Z.pos m mod 2 ^ (- e) =? 0 then q else q + 1))
        else number_of_Z q
  | _ => x
  end.

(** What [Math.random()] may return: a number with positive sign, at
    least [+0] and strictly below [1]. *)
Definition random_outcome (x : number) : bool :=
  match x with
  | S754_zero s => negb s
  | S754_finite s m e => negb s && bounded prec emax m e && (e <=? - prec)
  | _ => false
  end.

Record ActivityPoint := {
  date : string;
  trips_count : number;
  playlists_count : number
}.

(** The random source is the sequence of its outcomes; a call of
    [Math.random()] takes the next one.  [dates.map] visits the labels
    in order, and each entry draws for [trips] before [playlists]. *)
Definition RandomSource := nat -> number.

Fixpoint activity_points (random : RandomSource) (drawn : nat)
    (dates : list string) : list ActivityPoint :=
  match dates with
  | [] => []
  | d :: rest =>
      {| date := d;
         trips_count :=
           SFadd prec emax
             (Math_floor (SFmul prec emax (random drawn) (number_of_Z 50)))
             (number_of_Z 10);
         playlists_count :=
           SFadd prec emax
             (Math_floor (SFmul prec emax (random (S drawn)) (number_of_Z 20)))
             (number_of_Z 5) |}
      :: activity_points random (S (S drawn)) rest
  end.

Definition getActivityStats (random : RandomSource) : Promise (list ActivityPoint) :=
  let dates :=
    ["2024-01"; "2024-02"; "2024-03"; "2024-04"; "2024-05"; "2024-06"] in
  resolve (activity_points random 0 dates).

(* ================================================================== *)
(** * Request handlers *)
(* ================================================================== *)

(** A request body as the JSON middleware delivers it. *)
#[local] Unset Elimination Schemes.
Inductive Json :=
| JNull
| JBool (b : bool)
| JNumber (x : number)
| JString (s : string)
| JArray (items : list Json)
| JObject (members : list (string * Json)).
#[local] Set Elimination Schemes.

Fixpoint member (k : string) (members : list (string * Json)) : option Json :=
  match members with
  | [] => None
  | (k', v) :: rest => if (k' =? k)%string then Some v else member k rest
  end.

Fixpoint set_member (k : string) (v : Json) (members : list (string * Json))
  : list (string * Json) :=
  match members with
  | [] => [(k, v)]
  | (k', v') :: rest =>
      if (k' =? k)%string then (k, v) :: rest
      else (k', v') :: set_member k v rest
  end.

(** [body.k]: reading a property of [null] or [undefined] throws; an
    array or a primitive out of the JSON parser has no such property. *)
Definition get_property (k : string) (body : Json) : Promise (option Json) :=
  match body with
  | JNull => throw TypeError
  | JObject members => resolve (member k members)
  | _ => resolve None
  end.

(** [body.k = v] *)
Definition set_property (k : string) (v : Json) (body : Json) : Json :=
  match body with
  | JObject members => JObject (set_member k v members)
  | _ => body
  end.

Definition is_zero (x : number) : bool :=
  match x with
  | S754_zero _ => true
  | _ => false
  end.

Definition is_nan (x : number) : bool :=
  match x with
  | S754_nan => true
  | _ => false
  end.

(** Truthiness of an optional property value. *)
Definition truthy (v : option Json) : bool :=
  match v with
  | None => false
  | Some JNull => false
  | Some (JBool b) => b
  | Some (JNumber x) => negb (is_zero x || is_nan x)
  | Some (JString s) => negb (s =? "")%string
  | Some (JArray _) => true
  | Some (JObject _) => true
  end.

(** [typeof v === 'object'] *)
Definition typeof_object (v : option Json) : bool :=
  match v with
  | Some JNull | Some (JArray _) | Some (JObject _) => true
  | _ => false
  end.

(** [Array.isArray(v)] *)
Definition Array_isArray (v : option Json) : bool :=
  match v with
  | Some (JArray _) => true
  | _ => false
  end.

(** What a handler writes to [res]: [res.json(v)] and
    [res.status(c).json(v)] with a row payload, the same with a
    [{ message }] object, or [res.status(c).end()]. *)
Inductive Payload (A : Type) :=
| Value (v : A)
| Message (message : string)
| NoContent.

Arguments Message {A} message.
Arguments NoContent {A}.

Record Response (A : Type) := {
  status_code : Z;
  payload : Payload A
}.

Definition json {A} (v : A) : Response A :=
  {| status_code := 200; payload := Value v |}.

Definition status_json {A} (code : Z) (v : A) : Response A :=
  {| status_code := code; payload := Value v |}.

Definition status_message {A} (code : Z) (message : string) : Response A :=
  {| status_code := code; payload := Message message |}.

Definition status_end {A} (code : Z) : Response A :=
  {| status_code := code; payload := NoContent |}.

(** The outcome of [schema.parse(body)]. *)
Inductive Parsed (A : Type) :=
| Success (data : A)
| Failure (errors : list ZodIssue).

Arguments Failure {A} errors.

Definition parse {A} (schema : Json -> Parsed A) (body : Json) : Promise A :=
  match schema body with
  | Success data => resolve data
  | Failure errors => throw (ZodError errors)
  end.

(** [o.k] on a value that may be [undefined]. *)
Definition field {R A} (k : R -> A) (o : option R) : Promise A :=
  match o with
  | Some r => resolve (k r)
  | None => throw TypeError
  end.

Section Routes.
(** The collaborators the route module imports: the input schemas of
    the route table ([api.places.create.input],
    [api.playlists.create.input]) and the built-in [JSON.stringify]. *)
Variable places_create_input : Json -> Parsed InsertPlace.
Variable playlists_create_input : Json -> Parsed InsertPlaylist.
Variable JSON_stringify : Json -> string.

(** A path parameter [Number(req.params.id)] is taken as the integer
    it denotes; the [status] a PATCH body carries is the string the
    storage signature asks for.  Console output is not modelled. *)

Definition seedDatabase : Promise unit :=
  try_catch
    (users0 <- getUsers ;;
     if (List.length users0 =? 0)%nat then
       (* Seed Users *)
       user1 <- createUser
         {| new_user_name := "Sarah Miller"; new_user_email := "sarah@example.com";
            new_user_role := "user"; new_user_status := "active" |} ;;
       user2 <- createUser
         {| new_user_name := "John Doe"; new_user_email := "john@example.com";
            new_user_role := "user"; new_user_status := "active" |} ;;
       user3 <- createUser
         {| new_user_name := "TravelSL"; new_user_email := "travel@example.com";
            new_user_role := "admin"; new_user_status := "active" |} ;;
       user4 <- createUser
         {| new_user_name := "Mike Smith"; new_user_email := "mike@example.com";
            new_user_role := "user"; new_user_status := "disabled" |} ;;
       (* Seed Places *)
       place1 <- createPlace
         {| new_place_name := "Secret Beach Cove";
            new_place_description :=
              "A hidden gem with pristine white sand and turquoise waters.";
            new_place_location := "Mirissa, South Coast";
            new_place_category := "Beach";
            new_place_imageUrl :=
              "https://images.unsplash.com/photo-1507525428034-b723cf961d3e";
            new_place_rating := "4.8";
            new_place_status := "active";
            new_place_amenities :=
              JSON_stringify
                (JArray [JString "Parking"; JString "WiFi"; JString "Restrooms"]);
            new_place_coordinates :=
              JSON_stringify
                (JObject [("lat", JNumber (number_of_decimal 59485 4));
                          ("lng", JNumber (number_of_decimal 805353 4))]) |} ;;
       place2 <- createPlace
         {| new_place_name := "Hidden Waterfall Trail";
            new_place_description :=
              "A scenic hike leading to a breathtaking waterfall.";
            new_place_location := "Ella, Hill Country";
            new_place_category := "Nature";
            new_place_imageUrl :=
              "https://images.unsplash.com/photo-1432405972618-c60b0225b8f9";
            new_place_rating := "4.9";
            new_place_status := "active";
            new_place_amenities :=
              JSON_stringify (JArray [JString "Guide Available"; JString "Hiking"]);
            new_place_coordinates :=
              JSON_stringify
                (JObject [("lat", JNumber (number_of_decimal 68667 4));
                          ("lng", JNumber (number_of_decimal 810466 4))]) |} ;;
       place3 <- createPlace
         {| new_place_name := "Ancient Temple Ruins";
            new_place_description :=
              "Historical ruins dating back to the 5th century.";
            new_place_location := "Anuradhapura";
            new_place_category := "Cultural";
            new_place_imageUrl :=
              "https://images.unsplash.com/photo-1588596623667-27e163b96c9c";
            new_place_rating := "4.7";
            new_place_status := "active";
            new_place_amenities :=
              JSON_stringify (JArray [JString "Guide Available"]);
            new_place_coordinates :=
              JSON_stringify
                (JObject [("lat", JNumber (number_of_decimal 83114 4));
                          ("lng", JNumber (number_of_decimal 804037 4))]) |} ;;
       (* Seed Playlists *)
       user3_id <- field user_id user3 ;;
       user3_name <- field user_name user3 ;;
       createPlaylist
         {| new_playlist_name := "Southern Coast Adventure";
            new_playlist_description :=
              "Explore the best beaches and coastal towns.";
            new_playlist_creatorId := user3_id;
            new_playlist_creatorName := user3_name;
            new_playlist_status := "approved";
            new_playlist_placesCount := 8;
            new_playlist_isFeatured := true;
            new_playlist_visibility := "public" |} ;;
       user2_id <- field user_id user2 ;;
       user2_name <- field user_name user2 ;;
       createPlaylist
         {| new_playlist_name := "Hill Country Hikes";
            new_playlist_description :=
              "Best hiking trails in Ella and Nuwara Eliya.";
            new_playlist_creatorId := user2_id;
            new_playlist_creatorName := user2_name;
            new_playlist_status := "pending";
            new_playlist_placesCount := 6;
            new_playlist_isFeatured := false;
            new_playlist_visibility := "public" |} ;;
       (* Seed Trips (for stats) *)
       user1_id <- field user_id user1 ;;
       createTrip
         {| new_trip_userId := user1_id; new_trip_destination := "Sri Lanka";
            new_trip_status := "completed" |} ;;
       user2_id <- field user_id user2 ;;
       createTrip
         {| new_trip_userId := user2_id; new_trip_destination := "Maldives";
            new_trip_status := "planned" |} ;;
       user1_id <- field user_id user1 ;;
       createTrip
         {| new_trip_userId := user1_id; new_trip_destination := "Japan";
            new_trip_status := "completed" |} ;;
       (* Seed Reviews *)
       user1_id <- field user_id user1 ;;
       user1_name <- field user_name user1 ;;
       place1_id <- field place_id place1 ;;
       place1_name <- field place_name place1 ;;
       createReview
         {| new_review_userId := user1_id;
            new_review_userName := user1_name;
            new_review_placeId := place1_id;
            new_review_placeName := place1_name;
            new_review_content := "Absolutely stunning place! Must visit.";
            new_review_rating := "5";
            new_review_status := "pending" |} ;;
       user2_id <- field user_id user2 ;;
       user2_name <- field user_name user2 ;;
       place2_id <- field place_id place2 ;;
       place2_name <- field place_name place2 ;;
       createReview
         {| new_review_userId := user2_id;
            new_review_userName := user2_name;
            new_review_placeId := place2_id;
            new_review_placeName := place2_name;
            new_review_content := "A bit hard to find, but worth the hike.";
            new_review_rating := "4";
            new_review_status := "approved" |} ;;
       (* Seed Photos *)
       user1_id <- field user_id user1 ;;
       user1_name <- field user_name user1 ;;
       place1_id <- field place_id place1 ;;
       createPhoto
         {| new_photo_uploaderId := user1_id;
            new_photo_uploaderName := user1_name;
            new_photo_url :=
              "https://images.unsplash.com/photo-1506929562872-bb421503ef21";
            new_photo_caption := "Sunset at the beach";
            new_photo_relatedType := "place";
            new_photo_relatedId := place1_id;
            new_photo_status := "pending" |} ;;
       resolve tt
     else resolve tt)
    (fun err => resolve tt).

(* Dashboard *)
Definition dashboard_stats : Promise (Response StatsResponse) :=
  stats <- getDashboardStats ;;
  resolve (json stats).

Definition dashboard_activity (random : RandomSource)
  : Promise (Response (list ActivityPoint)) :=
  activity <- getActivityStats random ;;
  resolve (json activity).

(* Places *)
Definition places_list : Promise (Response (list Place)) :=
  all <- getPlaces ;;
  resolve (json all).

Definition places_get (id : Z) : Promise (Response Place) :=
  place <- getPlace id ;;
  match place with
  | None => resolve (status_message 404 "Place not found")
  | Some p => resolve (json p)
  end.

Definition places_create (req_body : Json) : Promise (Response (option Place)) :=
  try_catch
    (let body := req_body in
     (* Convert coordinates object to JSON string if needed *)
     coordinates <- get_property "coordinates" body ;;
     let body :=
       if truthy coordinates && typeof_object coordinates then
         match coordinates with
         | Some c => set_property "coordinates" (JString (JSON_stringify c)) body
         | None => body
         end
       else body in
     (* Convert amenities array to JSON string if needed *)
     amenities <- get_property "amenities" body ;;
     let body :=
       if truthy amenities && Array_isArray amenities then
         match amenities with
         | Some a => set_property "amenities" (JString (JSON_stringify a)) body
         | None => body
         end
       else body in
     input <- parse places_create_input body ;;
     place <- createPlace input ;;
     resolve (status_json 201 place))
    (fun err =>
       match err with
       | ZodError errors =>
           first_issue <- field issue_message (first errors) ;;
           resolve (status_message 400 first_issue)
       | _ => throw err
       end).

(** The body of a PUT is taken as the partial record the storage
    signature asks for. *)
Definition places_update (id : Z) (req_body : PartialInsertPlace)
  : Promise (Response Place) :=
  updated <- updatePlace id req_body ;;
  match updated with
  | None => resolve (status_message 404 "Place not found")
  | Some p => resolve (json p)
  end.

Definition places_delete (id : Z) : Promise (Response unit) :=
  deletePlace id ;;
  resolve (status_end 204).

(* Playlists *)
Definition playlists_list : Promise (Response (list Playlist)) :=
  all <- getPlaylists ;;
  resolve (json all).

Definition playlists_create (req_body : Json)
  : Promise (Response (option Playlist)) :=
  input <- parse playlists_create_input req_body ;;
  playlist <- createPlaylist input ;;
  resolve (status_json 201 playlist).

Definition playlists_updateStatus (id : Z) (status : string)
  : Promise (Response (option Playlist)) :=
  updated <- updatePlaylistStatus id status ;;
  resolve (json updated).

(* Users *)
Definition users_list : Promise (Response (list User)) :=
  all <- getUsers ;;
  resolve (json all).

Definition users_updateStatus (id : Z) (status : string)
  : Promise (Response (option User)) :=
  updated <- updateUserStatus id status ;;
  resolve (json updated).

Definition users_delete (id : Z) : Promise (Response unit) :=
  deleteUser id ;;
  resolve (status_end 204).

(* Moderation *)
Definition moderation_reviews_list : Promise (Response (list Review)) :=
  all <- getReviews ;;
  let pending := filter (fun r => review_status r =? "pending")%string all in
  resolve (json pending).

Definition moderation_reviews_action (id : Z) (status : string)
  : Promise (Response (option Review)) :=
  updated <- updateReviewStatus id status ;;
  resolve (json updated).

Definition moderation_photos_list : Promise (Response (list Photo)) :=
  all <- getPhotos ;;
  let pending := filter (fun p => photo_status p =? "pending")%string all in
  resolve (json pending).

Definition moderation_photos_action (id : Z) (status : string)
  : Promise (Response (option Photo)) :=
  updated <- updatePhotoStatus id status ;;
  resolve (json updated).
End Routes.

(* ================================================================== *)
(** * Vocabulary of the properties *)
(* ================================================================== *)

(** The status tests of the dashboard. *)
Definition is_active (u : User) : bool := (user_status u =? "active")%string.
Definition is_pending_review (r : Review) : bool :=
  (review_status r =? "pending")%string.

(** The counts a full scan of the tables gives. *)
Definition table_counts (s : Store) : StatsResponse :=
  {| totalTrips := List.length (rows (tbl_trips s));
     totalPlaylists := List.length (rows (tbl_playlists s));
     totalPlaces := List.length (rows (tbl_places s));
     activeUsers := List.length (filter is_active (rows (tbl_users s)));
     pendingReviews :=
       List.length (filter is_pending_review (rows (tbl_reviews s))) |}.

(** The user operations the dashboard property ranges over. *)
Inductive UserCommand :=
| DoCreateUser (user : InsertUser)
| DoUpdateUserStatus (id : Z) (status : string).

Definition run_command (c : UserCommand) : Promise unit :=
  match c with
  | DoCreateUser user => createUser user ;; resolve tt
  | DoUpdateUserStatus id status => updateUserStatus id status ;; resolve tt
  end.

Fixpoint run_commands (cs : list UserCommand) : Promise unit :=
  match cs with
  | [] => resolve tt
  | c :: rest => run_command c ;; run_commands rest
  end.

(** The table an update leaves behind. *)
Definition updated_table R I (t : TableRef R I) (f : R -> R) (id : Z)
    (s : Store) : Table R :=
  {| rows := map (fun r => if eq_id t id r then f r else r) (rows (read t s));
     next_id := next_id (read t s) |}.

(** Every identifier of a table was drawn from its sequence: it lies
    below the next one to be handed out. *)
Definition in_sequence R (key : R -> Z) (tb : Table R) : Prop :=
  Forall (fun r => key r < next_id tb) (rows tb).

Definition well_sequenced (s : Store) : Prop :=
  in_sequence user_id (tbl_users s) /\
  in_sequence place_id (tbl_places s) /\
  in_sequence playlist_id (tbl_playlists s) /\
  in_sequence trip_id (tbl_trips s) /\
  in_sequence review_id (tbl_reviews s) /\
  in_sequence photo_id (tbl_photos s).

(** A promise keeps the invariant when it does so from every world. *)
Definition keeps_sequence A (p : Promise A) : Prop :=
  forall w, well_sequenced (store w) -> well_sequenced (store (snd (p w))).

(** What the places handler hands to its schema: the body with a
    structured [coordinates] and an array [amenities] replaced by their
    JSON text. *)
Definition normalized_place_body (JSON_stringify : Json -> string)
    (body : Json) : Json :=
  match body with
  | JObject members =>
      let members1 :=
        match member "coordinates" members with
        | Some (JArray items) =>
            set_member "coordinates"
              (JString (JSON_stringify (JArray items))) members
        | Some (JObject ms) =>
            set_member "coordinates"
              (JString (JSON_stringify (JObject ms))) members
        | _ => members
        end in
      match member "amenities" members1 with
      | Some (JArray items) =>
          JObject (set_member "amenities"
                     (JString (JSON_stringify (JArray items))) members1)
      | _ => JObject members1
      end
  | _ => body
  end.

(** The number a rounding step assembles from a mantissa and an exponent. *)
Definition assembled (m2 e2 : Z) : number :=
  match m2 with
  | Z0 => S754_zero false
  | Zpos p =>
      if e2 <=? emax - prec then S754_finite false p e2
      else S754_infinity false
  | Zneg _ => S754_nan
  end.

(** An entry whose counts are the numbers of integers in the ranges of
    the mock chart. *)
Definition in_chart_range (pt : ActivityPoint) : Prop :=
  exists t p : Z,
    trips_count pt = number_of_Z t /\ 10 <= t <= 59 /\
    playlists_count pt = number_of_Z p /\ 5 <= p <= 24.

(** A listing that runs from the latest stamp to the earliest. *)
Fixpoint descending R (column : R -> Z) (l : list R) : Prop :=
  match l with
  | [] => True
  | x :: rest => (forall y, In y rest -> column y <= column x) /\
                 descending column rest
  end.

(** One store extends another when each table of the first begins with
    the rows of the second, in the same order. *)
Definition table_extends R (after before : Table R) : Prop :=
  exists added, rows after = (rows before ++ added)%list.

Definition store_extends (after before : Store) : Prop :=
  table_extends (tbl_users after) (tbl_users before) /\
  table_extends (tbl_places after) (tbl_places before) /\
  table_extends (tbl_playlists after) (tbl_playlists before) /\
  table_extends (tbl_trips after) (tbl_trips before) /\
  table_extends (tbl_reviews after) (tbl_reviews before) /\
  table_extends (tbl_photos after) (tbl_photos before).

(** The world a round trip leaves when it does not touch the store. *)
Definition one_flag_later (w : World) : World :=
  {| store := store w; clock := clock w; outages := tl (outages w) |}.

(** What a settled promise carries when it resolved. *)
Definition resolved_value A (r : Settled A) : option A :=
  match r with
  | Resolved a => Some a
  | Rejected _ => None
  end.

(** A promise keeps a property of the store when the store it leaves
    has the property whenever the store it found had it. *)
Definition preserves A (P : Store -> Prop) (p : Promise A) : Prop :=
  forall w, P (store w) -> P (store (snd (p w))).

(** A property of the store that no insert into any table can break. *)
Definition closed_under_inserts (P : Store -> Prop) : Prop :=
  (forall v now s, P s -> P (snd (insert_returning users v now s))) /\
  (forall v now s, P s -> P (snd (insert_returning places v now s))) /\
  (forall v now s, P s -> P (snd (insert_returning playlists v now s))) /\
  (forall v now s, P s -> P (snd (insert_returning trips v now s))) /\
  (forall v now s, P s -> P (snd (insert_returning reviews v now s))) /\
  (forall v now s, P s -> P (snd (insert_returning photos v now s))).

(** A promise only reads: in every world it leaves the store as it found
    it, and when it rejects it is with the failure of the data store. *)
Definition read_only A (p : Promise A) : Prop :=
  forall w,
    store (snd (p w)) = store w /\
    (forall e, fst (p w) = Rejected e -> e = StoreFailure).

(** ** Sample data for the examples *)

(** A small populated world: two users, a place, a playlist, two
    reviews and a photo, inserted through the storage methods. *)
Definition demo_setup : Promise unit :=
  createUser {| new_user_name := "A"; new_user_email := "a@example.com";
                new_user_role := "user"; new_user_status := "active" |} ;;
  createUser {| new_user_name := "B"; new_user_email := "b@example.com";
                new_user_role := "user"; new_user_status := "disabled" |} ;;
  createPlace {| new_place_name := "Harbour"; new_place_description := "Old port";
                 new_place_location := "Galle"; new_place_category := "Cultural";
                 new_place_imageUrl := "https://example.com/harbour.jpg";
                 new_place_rating := "4.5"; new_place_status := "active";
                 new_place_amenities := "[]"; new_place_coordinates := "{}" |} ;;
  createPlaylist {| new_playlist_name := "Weekend";
                    new_playlist_description := "Two days";
                    new_playlist_creatorId := 1; new_playlist_creatorName := "A";
                    new_playlist_status := "pending"; new_playlist_placesCount := 1;
                    new_playlist_isFeatured := false;
                    new_playlist_visibility := "public" |} ;;
  createReview {| new_review_userId := 1; new_review_userName := "A";
                  new_review_placeId := 1; new_review_placeName := "Harbour";
                  new_review_content := "Lovely"; new_review_rating := "5";
                  new_review_status := "pending" |} ;;
  createReview {| new_review_userId := 2; new_review_userName := "B";
                  new_review_placeId := 1; new_review_placeName := "Harbour";
                  new_review_content := "Crowded"; new_review_rating := "3";
                  new_review_status := "approved" |} ;;
  createPhoto {| new_photo_uploaderId := 1; new_photo_uploaderName := "A";
                 new_photo_url := "https://example.com/p.jpg";
                 new_photo_caption := "Boats"; new_photo_relatedType := "place";
                 new_photo_relatedId := 1; new_photo_status := "pending" |} ;;
  resolve tt.

Definition demo_store : Store :=
  Eval vm_compute in store (snd (demo_setup (healthy empty_store 1700000000))).

(** A schema in the manner of the route table's: a playlist needs a
    textual [name]. *)
Definition demo_playlist_schema (body : Json) : Parsed InsertPlaylist :=
  match body with
  | JObject members =>
      match member "name" members with
      | Some (JString name) =>
          Success
            {| new_playlist_name := name;
               new_playlist_description := "";
               new_playlist_creatorId := 1;
               new_playlist_creatorName := "A";
               new_playlist_status := "pending";
               new_playlist_placesCount := 0;
               new_playlist_isFeatured := false;
               new_playlist_visibility := "public" |}
      | Some _ =>
          Failure [{| issue_path := ["name"];
                      issue_message := "Expected string" |}]
      | None =>
          Failure [{| issue_path := ["name"]; issue_message := "Required" |}]
      end
  | _ => Failure [{| issue_path := []; issue_message := "Expected object" |}]
  end.

(** A schema in the manner of the route table's for places: a textual
    [name] is required, and [coordinates] and [amenities], when present,
    must be text. *)
Definition text_member (k : string) (members : list (string * Json))
    (otherwise : string) : string :=
  match member k members with
  | Some (JString text) => text
  | _ => otherwise
  end.

Definition text_or_absent (k : string) (members : list (string * Json)) : bool :=
  match member k members with
  | Some (JString _) | None => true
  | Some _ => false
  end.

Definition demo_place_schema (body : Json) : Parsed InsertPlace :=
  match body with
  | JObject members =>
      match member "name" members with
      | Some (JString name) =>
          if negb (text_or_absent "coordinates" members) then
            Failure [{| issue_path := ["coordinates"];
                        issue_message := "Expected string" |}]
          else if negb (text_or_absent "amenities" members) then
            Failure [{| issue_path := ["amenities"];
                        issue_message := "Expected string" |}]
          else
            Success
              {| new_place_name := name;
                 new_place_description := text_member "description" members "";
                 new_place_location := text_member "location" members "";
                 new_place_category := text_member "category" members "";
                 new_place_imageUrl := text_member "imageUrl" members "";
                 new_place_rating := text_member "rating" members "0";
                 new_place_status := text_member "status" members "active";
                 new_place_amenities := text_member "amenities" members "[]";
                 new_place_coordinates := text_member "coordinates" members "{}" |}
      | Some _ =>
          Failure [{| issue_path := ["name"];
                      issue_message := "Expected string" |}]
      | None =>
          Failure [{| issue_path := ["name"]; issue_message := "Required" |};
                   {| issue_path := ["location"]; issue_message := "Required" |}]
      end
  | _ => Failure [{| issue_path := []; issue_message := "Expected object" |}]
  end.

(** A serializer for the examples, in place of the built-in
    [JSON.stringify]: text, arrays and objects are written out, a number
    is abbreviated to [0]. *)
Definition quote : string := String (Ascii.ascii_of_nat 34) EmptyString.

Fixpoint demo_stringify (v : Json) : string :=
  match v with
  | JNull => "null"
  | JBool true => "true"
  | JBool false => "false"
  | JNumber _ => "0"
  | JString s => quote ++ s ++ quote
  | JArray items => "[" ++ String.concat "," (map demo_stringify items) ++ "]"
  | JObject members =>
      "{" ++ String.concat ","
               (map (fun '(k, x) => quote ++ k ++ quote ++ ":" ++ demo_stringify x)
                    members) ++ "}"
  end%string.

(** The store a first start leaves behind. *)
Definition seeded_store : Store :=
  Eval vm_compute in
    store (snd (seedDatabase demo_stringify (healthy empty_store 1700000000))).

(** A random source for the examples: it cycles through the smallest
    outcome, the largest one below 1, and some in between. *)
Definition demo_outcomes : list number :=
  [ S754_zero false;
    S754_finite false 9007199254740991 (-53);
    number_of_decimal 5 1;
    number_of_decimal 999 3;
    number_of_decimal 123 3;
    S754_finite false 1 (-1074) ].

Definition demo_random : RandomSource :=
  fun i => nth (i mod 6) demo_outcomes (S754_zero false).

(* ================================================================== *)
(** * Properties *)
(* ================================================================== *)

(** ** Round trips on a reachable store *)

Lemma round_trip_healthy A (q : Z -> Store -> A * Store) s now :
  round_trip q (healthy s now) =
  (Resolved (fst (q now s)), healthy (snd (q now s)) now).
Proof.
  unfold round_trip, healthy; simpl.
  destruct (q now s); reflexivity.
Qed.

Lemma query_healthy A (q : Store -> A) s now :
  query q (healthy s now) = (Resolved (q s), healthy s now).
Proof. unfold query. rewrite round_trip_healthy. reflexivity. Qed.

Lemma execute_healthy (q : Store -> Store) s now :
  execute q (healthy s now) = (Resolved tt, healthy (q s) now).
Proof. unfold execute. rewrite round_trip_healthy. reflexivity. Qed.

Lemma await_resolved A B (p : Promise A) (k : A -> Promise B) w a w' :
  p w = (Resolved a, w') -> await p k w = k a w'.
Proof. intros H. unfold await. rewrite H. reflexivity. Qed.

Lemma await_rejected A B (p : Promise A) (k : A -> Promise B) w e w' :
  p w = (Rejected e, w') -> await p k w = (Rejected e, w').
Proof. intros H. unfold await. rewrite H. reflexivity. Qed.

(** A round trip never touches the clock, and either fails leaving the
    store alone or runs its query. *)
Lemma round_trip_cases A (q : Z -> Store -> A * Store) w :
  (round_trip q w =
     (Rejected StoreFailure,
      {| store := store w; clock := clock w; outages := tl (outages w) |}))
  \/
  (round_trip q w =
     (Resolved (fst (q (clock w) (store w))),
      {| store := snd (q (clock w) (store w)); clock := clock w;
         outages := tl (outages w) |})).
Proof.
  unfold round_trip.
  destruct (outages w) as [|[|] later]; simpl;
    destruct (q (clock w) (store w)); auto.
Qed.

(** A round trip that meets an outage rejects with the store failure and
    leaves the store alone: the failure reaches the caller unchanged. *)
Lemma round_trip_outage A (q : Z -> Store -> A * Store) w later :
  outages w = true :: later ->
  round_trip q w =
  (Rejected StoreFailure,
   {| store := store w; clock := clock w; outages := later |}).
Proof. intros H. unfold round_trip. rewrite H. reflexivity. Qed.

Lemma query_cases A (q : Store -> A) w :
  query q w =
    (Rejected StoreFailure,
     {| store := store w; clock := clock w; outages := tl (outages w) |})
  \/
  query q w =
    (Resolved (q (store w)),
     {| store := store w; clock := clock w; outages := tl (outages w) |}).
Proof.
  unfold query.
  destruct (round_trip_cases (fun (_ : Z) (s : Store) => (q s, s)) w) as [H|H];
    rewrite H; auto.
Qed.

(** ** Ordering is a rearrangement *)

Section OrderByFacts.
Variable R : Type.
Variable column : R -> Z.

Lemma insert_desc_perm r l :
  Permutation (insert_desc column r l) (r :: l).
Proof.
  induction l as [|x rest IH]; simpl.
  - apply Permutation_refl.
  - destruct (column x <? column r).
    + apply Permutation_refl.
    + eapply perm_trans.
      * apply perm_skip, IH.
      * apply perm_swap.
Qed.

Lemma orderBy_desc_perm l :
  Permutation (orderBy_desc column l) l.
Proof.
  induction l as [|r rest IH]; simpl.
  - apply perm_nil.
  - eapply perm_trans.
    + apply insert_desc_perm.
    + apply perm_skip, IH.
Qed.

Lemma orderBy_desc_length l :
  List.length (orderBy_desc column l) = List.length l.
Proof. apply Permutation_length, orderBy_desc_perm. Qed.

Lemma orderBy_desc_In r l :
  In r (orderBy_desc column l) <-> In r l.
Proof.
  split; apply Permutation_in.
  - apply orderBy_desc_perm.
  - apply Permutation_sym, orderBy_desc_perm.
Qed.
End OrderByFacts.

Lemma filter_perm A (keep : A -> bool) (l l' : list A) :
  Permutation l l' -> Permutation (filter keep l) (filter keep l').
Proof.
  induction 1 as [| x l l' _ IH | x y l | l l' l'' _ IH1 _ IH2]; simpl.
  - apply perm_nil.
  - destruct (keep x); [apply perm_skip|]; exact IH.
  - destruct (keep x), (keep y);
      try apply perm_swap; apply Permutation_refl.
  - eapply perm_trans; eassumption.
Qed.

Lemma filter_orderBy_desc_length R (column : R -> Z) (keep : R -> bool) l :
  List.length (filter keep (orderBy_desc column l)) = List.length (filter keep l).
Proof. apply Permutation_length, filter_perm, orderBy_desc_perm. Qed.

(** ** Listings on a reachable store *)

Lemma getTrips_healthy s now :
  getTrips (healthy s now) = (Resolved (rows (tbl_trips s)), healthy s now).
Proof. unfold getTrips. rewrite query_healthy. reflexivity. Qed.

Lemma getUsers_healthy s now :
  getUsers (healthy s now) =
  (Resolved (orderBy_desc user_joinedAt (rows (tbl_users s))), healthy s now).
Proof. unfold getUsers. rewrite query_healthy. reflexivity. Qed.

Lemma getPlaces_healthy s now :
  getPlaces (healthy s now) =
  (Resolved (orderBy_desc place_createdAt (rows (tbl_places s))), healthy s now).
Proof. unfold getPlaces. rewrite query_healthy. reflexivity. Qed.

Lemma getPlaylists_healthy s now :
  getPlaylists (healthy s now) =
  (Resolved (orderBy_desc playlist_createdAt (rows (tbl_playlists s))),
   healthy s now).
Proof. unfold getPlaylists. rewrite query_healthy. reflexivity. Qed.

Lemma getReviews_healthy s now :
  getReviews (healthy s now) =
  (Resolved (orderBy_desc review_createdAt (rows (tbl_reviews s))), healthy s now).
Proof. unfold getReviews. rewrite query_healthy. reflexivity. Qed.

Lemma getPhotos_healthy s now :
  getPhotos (healthy s now) =
  (Resolved (orderBy_desc photo_createdAt (rows (tbl_photos s))), healthy s now).
Proof. unfold getPhotos. rewrite query_healthy. reflexivity. Qed.

(** ** Dashboard counts *)

Lemma getDashboardStats_healthy s now :
  getDashboardStats (healthy s now) = (Resolved (table_counts s), healthy s now).
Proof.
  unfold getDashboardStats.
  erewrite await_resolved by apply getTrips_healthy.
  erewrite await_resolved by apply getPlaylists_healthy.
  erewrite await_resolved by apply getPlaces_healthy.
  erewrite await_resolved by apply getUsers_healthy.
  erewrite await_resolved by apply getReviews_healthy.
  unfold resolve, table_counts.
  rewrite !orderBy_desc_length.
  rewrite !filter_orderBy_desc_length.
  reflexivity.
Qed.

(** In any world: when [getDashboardStats] resolves, it resolves to the
    scan counts of the store and leaves the store as it was; otherwise a
    round trip failed and the failure is passed on. *)
Lemma getDashboardStats_resolved w stats w' :
  getDashboardStats w = (Resolved stats, w') ->
  stats = table_counts (store w) /\ store w' = store w.
Proof.
  unfold getDashboardStats, getTrips, getPlaylists, getPlaces, getUsers,
    getReviews, await.
  repeat
    match goal with
    | |- context [query ?q ?x] =>
        destruct (query_cases q x) as [H|H]; rewrite H; clear H;
        [intros H; discriminate H|]
    end.
  unfold resolve. simpl. intros H. inversion H; subst. split; [|reflexivity].
  unfold table_counts, select_from; simpl.
  rewrite !orderBy_desc_length, !filter_orderBy_desc_length. reflexivity.
Qed.

Lemma getDashboardStats_rejection w e w' :
  getDashboardStats w = (Rejected e, w') ->
  e = StoreFailure /\ store w' = store w.
Proof.
  unfold getDashboardStats, getTrips, getPlaylists, getPlaces, getUsers,
    getReviews, await.
  repeat
    match goal with
    | |- context [query ?q ?x] =>
        destruct (query_cases q x) as [H|H]; rewrite H; clear H;
        [intros H; inversion H; subst; split; reflexivity|]
    end.
  unfold resolve. intros H. discriminate H.
Qed.

Lemma run_command_healthy c s now :
  exists s', run_command c (healthy s now) = (Resolved tt, healthy s' now).
Proof.
  destruct c as [user | id status]; simpl;
    unfold createUser, updateUserStatus, await;
    rewrite round_trip_healthy; simpl; eexists; reflexivity.
Qed.

Lemma run_commands_healthy cs : forall s now,
  exists s', run_commands cs (healthy s now) = (Resolved tt, healthy s' now).
Proof.
  induction cs as [|c rest IH]; intros s now; simpl.
  - exists s. reflexivity.
  - destruct (run_command_healthy c s now) as [s1 H1].
    destruct (IH s1 now) as [s2 H2].
    exists s2. erewrite await_resolved by exact H1. exact H2.
Qed.

(** C1.  On every store state [getDashboardStats] resolves to exactly
    five counts taken from full scans: the number of trip rows, of
    playlist rows, of place rows, of user rows whose status is "active"
    and of review rows whose status is "pending"; the store is left as
    it was.  In particular, after any sequence of create and
    update-status operations on users, [activeUsers] is the number of
    users of the resulting store whose status is "active". *)
Theorem getDashboardStats_counts :
  forall (s : Store) (now : Z),
    getDashboardStats (healthy s now) =
      (Resolved
         {| totalTrips := List.length (rows (tbl_trips s));
            totalPlaylists := List.length (rows (tbl_playlists s));
            totalPlaces := List.length (rows (tbl_places s));
            activeUsers :=
              List.length
                (filter (fun u => user_status u =? "active")%string
                        (rows (tbl_users s)));
            pendingReviews :=
              List.length
                (filter (fun r => review_status r =? "pending")%string
                        (rows (tbl_reviews s))) |},
       healthy s now)
    /\
    forall cs : list UserCommand,
      let w := snd (run_commands cs (healthy s now)) in
      exists stats,
        getDashboardStats w = (Resolved stats, w) /\
        activeUsers stats =
          List.length
            (filter (fun u => user_status u =? "active")%string
                    (rows (tbl_users (store w)))).
Proof.
  intros s now. split.
  - apply getDashboardStats_healthy.
  - intros cs w.
    destruct (run_commands_healthy cs s now) as [s' Hs'].
    subst w. rewrite Hs'. simpl.
    exists (table_counts s'). split.
    + apply getDashboardStats_healthy.
    + reflexivity.
Qed.

(** The scenario of the specification: one active and one disabled user
    give [activeUsers = 1]. *)
Example dashboard_scenario :
  let cs :=
    [DoCreateUser {| new_user_name := "A"; new_user_email := "a@example.com";
                     new_user_role := "user"; new_user_status := "active" |};
     DoCreateUser {| new_user_name := "B"; new_user_email := "b@example.com";
                     new_user_role := "user"; new_user_status := "disabled" |}] in
  option_map activeUsers
    (match fst (getDashboardStats (snd (run_commands cs (healthy empty_store 0)))) with
     | Resolved stats => Some stats
     | Rejected _ => None
     end) = Some 1%nat.
Proof. reflexivity. Qed.

(** ** Moderation listings *)

(** C2.  On every store state the moderation listing for reviews, and
    likewise the one for photos, responds with exactly the rows whose
    status is "pending": every listed item has that status, every row of
    the table with that status is listed (as often as it occurs), and
    the listed items all belong to the full listing. *)
Theorem moderation_lists_exactly_pending :
  forall (s : Store) (now : Z),
    (exists all pending,
        getReviews (healthy s now) = (Resolved all, healthy s now) /\
        moderation_reviews_list (healthy s now) =
          (Resolved (json pending), healthy s now) /\
        (forall r, In r pending -> review_status r = "pending") /\
        (forall r, In r (rows (tbl_reviews s)) ->
                   review_status r = "pending" -> In r pending) /\
        incl pending all /\
        Permutation pending
          (filter (fun r => review_status r =? "pending")%string
                  (rows (tbl_reviews s))))
    /\
    (exists all pending,
        getPhotos (healthy s now) = (Resolved all, healthy s now) /\
        moderation_photos_list (healthy s now) =
          (Resolved (json pending), healthy s now) /\
        (forall p, In p pending -> photo_status p = "pending") /\
        (forall p, In p (rows (tbl_photos s)) ->
                   photo_status p = "pending" -> In p pending) /\
        incl pending all /\
        Permutation pending
          (filter (fun p => photo_status p =? "pending")%string
                  (rows (tbl_photos s)))).
Proof.
  intros s now. split.
  - exists (orderBy_desc review_createdAt (rows (tbl_reviews s))).
    eexists. split; [apply getReviews_healthy|].
    split.
    { unfold moderation_reviews_list.
      erewrite await_resolved by apply getReviews_healthy. reflexivity. }
    repeat split.
    + intros r Hr. apply filter_In in Hr. destruct Hr as [_ Hr].
      apply String.eqb_eq in Hr. exact Hr.
    + intros r Hin Hst. apply filter_In. split.
      * apply orderBy_desc_In. exact Hin.
      * apply String.eqb_eq. exact Hst.
    + intros r Hr. apply filter_In in Hr. tauto.
    + apply filter_perm, orderBy_desc_perm.
  - exists (orderBy_desc photo_createdAt (rows (tbl_photos s))).
    eexists. split; [apply getPhotos_healthy|].
    split.
    { unfold moderation_photos_list.
      erewrite await_resolved by apply getPhotos_healthy. reflexivity. }
    repeat split.
    + intros p Hp. apply filter_In in Hp. destruct Hp as [_ Hp].
      apply String.eqb_eq in Hp. exact Hp.
    + intros p Hin Hst. apply filter_In. split.
      * apply orderBy_desc_In. exact Hin.
      * apply String.eqb_eq. exact Hst.
    + intros p Hp. apply filter_In in Hp. tauto.
    + apply filter_perm, orderBy_desc_perm.
Qed.

(** The scenario of the specification: a pending review is listed until
    its status is updated to "approved". *)
Example moderation_scenario :
  let review :=
    {| new_review_userId := 1; new_review_userName := "A";
       new_review_placeId := 1; new_review_placeName := "Harbour";
       new_review_content := "Quiet in the morning"; new_review_rating := "4";
       new_review_status := "pending" |} in
  let w1 := snd (createReview review (healthy demo_store 1700000100)) in
  let w2 := snd (updateReviewStatus 3 "approved" w1) in
  (match fst (moderation_reviews_list w1) with
   | Resolved r =>
       match payload r with
       | Value l => map review_id l
       | _ => []
       end
   | Rejected _ => []
   end = [3; 1]) /\
  (match fst (moderation_reviews_list w2) with
   | Resolved r =>
       match payload r with
       | Value l => map review_id l
       | _ => []
       end
   | Rejected _ => []
   end = [1]).
Proof. split; reflexivity. Qed.

(** ** Get by id *)

Lemma not_in_demo (id : Z) (ids : list Z) :
  forallb (fun x => negb (x =? id)) ids = true -> ~ In id ids.
Proof.
  intros H Hin. rewrite forallb_forall in H.
  specialize (H id Hin). rewrite Z.eqb_refl in H. discriminate H.
Qed.

Lemma filter_none A (keep : A -> bool) (l : list A) :
  (forall x, In x l -> keep x = false) -> filter keep l = [].
Proof.
  induction l as [|x rest IH]; intros H; simpl.
  - reflexivity.
  - rewrite (H x (or_introl eq_refl)). apply IH.
    intros y Hy. apply H. right. exact Hy.
Qed.

Lemma eq_id_absent R I (t : TableRef R I) id (l : list R) :
  ~ In id (map (pk t) l) -> forall r, In r l -> eq_id t id r = false.
Proof.
  intros Habs r Hr. unfold eq_id. apply Z.eqb_neq. intros Heq.
  apply Habs. rewrite <- Heq. apply in_map. exact Hr.
Qed.

Lemma getUser_healthy s now id :
  getUser id (healthy s now) =
  (Resolved (first (filter (eq_id users id) (rows (tbl_users s)))), healthy s now).
Proof.
  unfold getUser. erewrite await_resolved by apply query_healthy. reflexivity.
Qed.

Lemma getPlace_healthy s now id :
  getPlace id (healthy s now) =
  (Resolved (first (filter (eq_id places id) (rows (tbl_places s)))), healthy s now).
Proof.
  unfold getPlace. erewrite await_resolved by apply query_healthy. reflexivity.
Qed.

(** C4.  For an id no row of the table carries, [getUser] and [getPlace]
    resolve to the not-found signal ([undefined]): they neither reject
    nor make up a record; and the by-id read route of places answers 404
    with a message body. *)
Theorem get_by_id_absent :
  forall (s : Store) (now : Z) (id : Z),
    (~ In id (map user_id (rows (tbl_users s))) ->
       getUser id (healthy s now) = (Resolved None, healthy s now))
    /\
    (~ In id (map place_id (rows (tbl_places s))) ->
       getPlace id (healthy s now) = (Resolved None, healthy s now) /\
       places_get id (healthy s now) =
         (Resolved {| status_code := 404;
                      payload := Message "Place not found" |},
          healthy s now)).
Proof.
  intros s now id. split.
  - intros Habs. rewrite getUser_healthy.
    rewrite filter_none; [reflexivity|].
    apply (eq_id_absent users). exact Habs.
  - intros Habs.
    assert (Hget : getPlace id (healthy s now) = (Resolved None, healthy s now)).
    { rewrite getPlace_healthy.
      rewrite filter_none; [reflexivity|].
      apply (eq_id_absent places). exact Habs. }
    split; [exact Hget|].
    unfold places_get. erewrite await_resolved by exact Hget. reflexivity.
Qed.

Lemma get_by_id_absent_witness :
  getUser 9 (healthy demo_store 1700000100) =
    (Resolved None, healthy demo_store 1700000100) /\
  places_get 9 (healthy demo_store 1700000100) =
    (Resolved {| status_code := 404; payload := Message "Place not found" |},
     healthy demo_store 1700000100).
Proof.
  split.
  - apply (proj1 (get_by_id_absent demo_store 1700000100 9)).
    apply not_in_demo. reflexivity.
  - apply (proj2 (get_by_id_absent demo_store 1700000100 9)).
    apply not_in_demo. reflexivity.
Defined.

(** A present id is found, and the route answers 200 with the row. *)
Example places_get_present :
  exists p,
    places_get 1 (healthy demo_store 1700000100) =
      (Resolved {| status_code := 200; payload := Value p |},
       healthy demo_store 1700000100) /\
    place_id p = 1 /\ place_name p = "Harbour".
Proof. eexists. repeat split. Qed.

(** ** Update status *)

Lemma first_filter A (keep : A -> bool) (l : list A) :
  first (filter keep l) = find keep l.
Proof.
  induction l as [|x rest IH]; simpl.
  - reflexivity.
  - destruct (keep x); [reflexivity | exact IH].
Qed.

Lemma first_map A B (f : A -> B) (l : list A) :
  first (map f l) = option_map f (first l).
Proof. destruct l; reflexivity. Qed.

Lemma map_where_absent A (cond : A -> bool) (f : A -> A) (l : list A) :
  (forall x, In x l -> cond x = false) ->
  map (fun r => if cond r then f r else r) l = l.
Proof.
  induction l as [|x rest IH]; intros H; simpl.
  - reflexivity.
  - rewrite (H x (or_introl eq_refl)). f_equal. apply IH.
    intros y Hy. apply H. right. exact Hy.
Qed.

Lemma find_absent A (cond : A -> bool) (l : list A) :
  (forall x, In x l -> cond x = false) -> find cond l = None.
Proof.
  induction l as [|x rest IH]; intros H; simpl.
  - reflexivity.
  - rewrite (H x (or_introl eq_refl)). apply IH.
    intros y Hy. apply H. right. exact Hy.
Qed.

Section UpdateStatus.
Variables R I : Type.
Variable t : TableRef R I.
Variable f : R -> R.

Lemma update_returning_first id s now :
  await (round_trip (fun _ : Z => update_where_returning t f (eq_id t id)))
        (fun updated => resolve (first updated)) (healthy s now) =
  (Resolved (option_map f (find (eq_id t id) (rows (read t s)))),
   healthy (write t (updated_table t f id s) s) now).
Proof.
  unfold await. rewrite round_trip_healthy. simpl.
  rewrite first_map, first_filter. reflexivity.
Qed.
End UpdateStatus.

Lemma table_eta R (tb : Table R) :
  {| rows := rows tb; next_id := next_id tb |} = tb.
Proof. destruct tb; reflexivity. Qed.

Lemma updated_table_absent R I (t : TableRef R I) f id s :
  ~ In id (map (pk t) (rows (read t s))) -> updated_table t f id s = read t s.
Proof.
  intros Habs. unfold updated_table.
  rewrite map_where_absent by (apply eq_id_absent; exact Habs).
  apply table_eta.
Qed.

Lemma write_read_users s : write users (read users s) s = s.
Proof. destruct s; reflexivity. Qed.
Lemma write_read_places s : write places (read places s) s = s.
Proof. destruct s; reflexivity. Qed.
Lemma write_read_playlists s : write playlists (read playlists s) s = s.
Proof. destruct s; reflexivity. Qed.
Lemma write_read_reviews s : write reviews (read reviews s) s = s.
Proof. destruct s; reflexivity. Qed.
Lemma write_read_photos s : write photos (read photos s) s = s.
Proof. destruct s; reflexivity. Qed.

(** C5.  When a row with the given id is present, update-status
    (for users, playlists, reviews and photos) resolves to that row with
    its status replaced by the given value and every other field as it
    was; in the table each row with that id has its status replaced and
    every other row is as before, the id sequence is kept, and the other
    tables are untouched. *)
Theorem update_status_changes_only_status :
  forall (s : Store) (now : Z) (id : Z) (status : string),
    (forall u, find (fun r => user_id r =? id) (rows (tbl_users s)) = Some u ->
       exists u' s',
         updateUserStatus id status (healthy s now) =
           (Resolved (Some u'), healthy s' now) /\
         user_status u' = status /\
         user_id u' = user_id u /\ user_name u' = user_name u /\
         user_email u' = user_email u /\ user_role u' = user_role u /\
         user_joinedAt u' = user_joinedAt u /\
         rows (tbl_users s') =
           map (fun r => if user_id r =? id then set_user_status status r else r)
               (rows (tbl_users s)) /\
         next_id (tbl_users s') = next_id (tbl_users s) /\
         tbl_places s' = tbl_places s /\ tbl_playlists s' = tbl_playlists s /\
         tbl_trips s' = tbl_trips s /\ tbl_reviews s' = tbl_reviews s /\
         tbl_photos s' = tbl_photos s)
    /\
    (forall p, find (fun r => playlist_id r =? id) (rows (tbl_playlists s)) = Some p ->
       exists p' s',
         updatePlaylistStatus id status (healthy s now) =
           (Resolved (Some p'), healthy s' now) /\
         playlist_status p' = status /\
         playlist_id p' = playlist_id p /\ playlist_name p' = playlist_name p /\
         playlist_description p' = playlist_description p /\
         playlist_creatorId p' = playlist_creatorId p /\
         playlist_creatorName p' = playlist_creatorName p /\
         playlist_placesCount p' = playlist_placesCount p /\
         playlist_isFeatured p' = playlist_isFeatured p /\
         playlist_visibility p' = playlist_visibility p /\
         playlist_createdAt p' = playlist_createdAt p /\
         rows (tbl_playlists s') =
           map (fun r => if playlist_id r =? id
                         then set_playlist_status status r else r)
               (rows (tbl_playlists s)) /\
         next_id (tbl_playlists s') = next_id (tbl_playlists s) /\
         tbl_users s' = tbl_users s /\ tbl_places s' = tbl_places s /\
         tbl_trips s' = tbl_trips s /\ tbl_reviews s' = tbl_reviews s /\
         tbl_photos s' = tbl_photos s)
    /\
    (forall r0, find (fun r => review_id r =? id) (rows (tbl_reviews s)) = Some r0 ->
       exists r' s',
         updateReviewStatus id status (healthy s now) =
           (Resolved (Some r'), healthy s' now) /\
         review_status r' = status /\
         review_id r' = review_id r0 /\ review_userId r' = review_userId r0 /\
         review_userName r' = review_userName r0 /\
         review_placeId r' = review_placeId r0 /\
         review_placeName r' = review_placeName r0 /\
         review_content r' = review_content r0 /\
         review_rating r' = review_rating r0 /\
         review_createdAt r' = review_createdAt r0 /\
         rows (tbl_reviews s') =
           map (fun r => if review_id r =? id then set_review_status status r else r)
               (rows (tbl_reviews s)) /\
         next_id (tbl_reviews s') = next_id (tbl_reviews s) /\
         tbl_users s' = tbl_users s /\ tbl_places s' = tbl_places s /\
         tbl_playlists s' = tbl_playlists s /\ tbl_trips s' = tbl_trips s /\
         tbl_photos s' = tbl_photos s)
    /\
    (forall p, find (fun r => photo_id r =? id) (rows (tbl_photos s)) = Some p ->
       exists p' s',
         updatePhotoStatus id status (healthy s now) =
           (Resolved (Some p'), healthy s' now) /\
         photo_status p' = status /\
         photo_id p' = photo_id p /\ photo_uploaderId p' = photo_uploaderId p /\
         photo_uploaderName p' = photo_uploaderName p /\
         photo_url p' = photo_url p /\ photo_caption p' = photo_caption p /\
         photo_relatedType p' = photo_relatedType p /\
         photo_relatedId p' = photo_relatedId p /\
         photo_createdAt p' = photo_createdAt p /\
         rows (tbl_photos s') =
           map (fun r => if photo_id r =? id then set_photo_status status r else r)
               (rows (tbl_photos s)) /\
         next_id (tbl_photos s') = next_id (tbl_photos s) /\
         tbl_users s' = tbl_users s /\ tbl_places s' = tbl_places s /\
         tbl_playlists s' = tbl_playlists s /\ tbl_trips s' = tbl_trips s /\
         tbl_reviews s' = tbl_reviews s).
Proof.
  intros s now id status. repeat apply conj.
  - intros u Hu. do 2 eexists. split.
    + unfold updateUserStatus. rewrite update_returning_first.
      change (find (eq_id users id) (rows (read users s)))
        with (find (fun r => user_id r =? id) (rows (tbl_users s))).
      rewrite Hu. reflexivity.
    + simpl. repeat split; reflexivity.
  - intros p Hp. do 2 eexists. split.
    + unfold updatePlaylistStatus. rewrite update_returning_first.
      change (find (eq_id playlists id) (rows (read playlists s)))
        with (find (fun r => playlist_id r =? id) (rows (tbl_playlists s))).
      rewrite Hp. reflexivity.
    + simpl. repeat split; reflexivity.
  - intros r0 Hr. do 2 eexists. split.
    + unfold updateReviewStatus. rewrite update_returning_first.
      change (find (eq_id reviews id) (rows (read reviews s)))
        with (find (fun r => review_id r =? id) (rows (tbl_reviews s))).
      rewrite Hr. reflexivity.
    + simpl. repeat split; reflexivity.
  - intros p Hp. do 2 eexists. split.
    + unfold updatePhotoStatus. rewrite update_returning_first.
      change (find (eq_id photos id) (rows (read photos s)))
        with (find (fun r => photo_id r =? id) (rows (tbl_photos s))).
      rewrite Hp. reflexivity.
    + simpl. repeat split; reflexivity.
Qed.

Lemma update_status_changes_only_status_witness :
  (exists u' s',
      updateUserStatus 1 "disabled" (healthy demo_store 1700000100) =
        (Resolved (Some u'), healthy s' 1700000100) /\
      user_status u' = "disabled" /\ user_name u' = "A") /\
  (exists p' s',
      updatePlaylistStatus 1 "approved" (healthy demo_store 1700000100) =
        (Resolved (Some p'), healthy s' 1700000100) /\
      playlist_status p' = "approved" /\ playlist_name p' = "Weekend") /\
  (exists r' s',
      updateReviewStatus 1 "approved" (healthy demo_store 1700000100) =
        (Resolved (Some r'), healthy s' 1700000100) /\
      review_status r' = "approved" /\ review_content r' = "Lovely") /\
  (exists p' s',
      updatePhotoStatus 1 "rejected" (healthy demo_store 1700000100) =
        (Resolved (Some p'), healthy s' 1700000100) /\
      photo_status p' = "rejected" /\ photo_caption p' = "Boats").
Proof.
  repeat apply conj.
  - destruct (proj1 (update_status_changes_only_status
                       demo_store 1700000100 1 "disabled") _ eq_refl)
      as (u' & s' & Hrun & Hst & _ & Hname & _).
    exists u', s'. repeat split; assumption.
  - destruct (proj1 (proj2 (update_status_changes_only_status
                              demo_store 1700000100 1 "approved")) _ eq_refl)
      as (p' & s' & Hrun & Hst & _ & Hname & _).
    exists p', s'. repeat split; assumption.
  - destruct (proj1 (proj2 (proj2 (update_status_changes_only_status
                                     demo_store 1700000100 1 "approved"))) _ eq_refl)
      as (r' & s' & Hrun & Hst & _ & _ & _ & _ & _ & Hc & _).
    exists r', s'. repeat split; assumption.
  - destruct (proj2 (proj2 (proj2 (update_status_changes_only_status
                                     demo_store 1700000100 1 "rejected"))) _ eq_refl)
      as (p' & s' & Hrun & Hst & _ & _ & _ & _ & Hc & _).
    exists p', s'. repeat split; assumption.
Defined.

(** C10.  Update-status with an id no row of the table carries resolves
    to [undefined] (no row) and changes nothing; it does not reject, and
    the PATCH handler answers with status 200 and that absent value as
    its JSON payload, never with 404. *)
Theorem update_status_absent_id :
  forall (s : Store) (now : Z) (id : Z) (status : string),
    (~ In id (map user_id (rows (tbl_users s))) ->
       updateUserStatus id status (healthy s now) =
         (Resolved None, healthy s now) /\
       users_updateStatus id status (healthy s now) =
         (Resolved {| status_code := 200; payload := Value None |},
          healthy s now))
    /\
    (~ In id (map playlist_id (rows (tbl_playlists s))) ->
       updatePlaylistStatus id status (healthy s now) =
         (Resolved None, healthy s now) /\
       playlists_updateStatus id status (healthy s now) =
         (Resolved {| status_code := 200; payload := Value None |},
          healthy s now))
    /\
    (~ In id (map review_id (rows (tbl_reviews s))) ->
       updateReviewStatus id status (healthy s now) =
         (Resolved None, healthy s now) /\
       moderation_reviews_action id status (healthy s now) =
         (Resolved {| status_code := 200; payload := Value None |},
          healthy s now))
    /\
    (~ In id (map photo_id (rows (tbl_photos s))) ->
       updatePhotoStatus id status (healthy s now) =
         (Resolved None, healthy s now) /\
       moderation_photos_action id status (healthy s now) =
         (Resolved {| status_code := 200; payload := Value None |},
          healthy s now)).
Proof.
  intros s now id status. repeat apply conj.
  - intros Habs.
    assert (H : updateUserStatus id status (healthy s now) =
                (Resolved None, healthy s now)).
    { unfold updateUserStatus. rewrite update_returning_first.
      rewrite find_absent by (apply (eq_id_absent users); exact Habs).
      rewrite updated_table_absent by exact Habs.
      rewrite write_read_users. reflexivity. }
    split; [exact H|].
    unfold users_updateStatus. erewrite await_resolved by exact H. reflexivity.
  - intros Habs.
    assert (H : updatePlaylistStatus id status (healthy s now) =
                (Resolved None, healthy s now)).
    { unfold updatePlaylistStatus. rewrite update_returning_first.
      rewrite find_absent by (apply (eq_id_absent playlists); exact Habs).
      rewrite updated_table_absent by exact Habs.
      rewrite write_read_playlists. reflexivity. }
    split; [exact H|].
    unfold playlists_updateStatus. erewrite await_resolved by exact H. reflexivity.
  - intros Habs.
    assert (H : updateReviewStatus id status (healthy s now) =
                (Resolved None, healthy s now)).
    { unfold updateReviewStatus. rewrite update_returning_first.
      rewrite find_absent by (apply (eq_id_absent reviews); exact Habs).
      rewrite updated_table_absent by exact Habs.
      rewrite write_read_reviews. reflexivity. }
    split; [exact H|].
    unfold moderation_reviews_action.
    erewrite await_resolved by exact H. reflexivity.
  - intros Habs.
    assert (H : updatePhotoStatus id status (healthy s now) =
                (Resolved None, healthy s now)).
    { unfold updatePhotoStatus. rewrite update_returning_first.
      rewrite find_absent by (apply (eq_id_absent photos); exact Habs).
      rewrite updated_table_absent by exact Habs.
      rewrite write_read_photos. reflexivity. }
    split; [exact H|].
    unfold moderation_photos_action.
    erewrite await_resolved by exact H. reflexivity.
Qed.

Lemma update_status_absent_id_witness :
  users_updateStatus 9 "disabled" (healthy demo_store 1700000100) =
    (Resolved {| status_code := 200; payload := Value None |},
     healthy demo_store 1700000100) /\
  playlists_updateStatus 9 "approved" (healthy demo_store 1700000100) =
    (Resolved {| status_code := 200; payload := Value None |},
     healthy demo_store 1700000100) /\
  moderation_reviews_action 9 "approved" (healthy demo_store 1700000100) =
    (Resolved {| status_code := 200; payload := Value None |},
     healthy demo_store 1700000100) /\
  moderation_photos_action 9 "approved" (healthy demo_store 1700000100) =
    (Resolved {| status_code := 200; payload := Value None |},
     healthy demo_store 1700000100).
Proof.
  repeat apply conj.
  - apply (proj1 (update_status_absent_id demo_store 1700000100 9 "disabled")).
    apply not_in_demo. reflexivity.
  - apply (proj1 (proj2 (update_status_absent_id demo_store 1700000100 9 "approved"))).
    apply not_in_demo. reflexivity.
  - apply (proj1 (proj2 (proj2
             (update_status_absent_id demo_store 1700000100 9 "approved")))).
    apply not_in_demo. reflexivity.
  - apply (proj2 (proj2 (proj2
             (update_status_absent_id demo_store 1700000100 9 "approved")))).
    apply not_in_demo. reflexivity.
Defined.

(** ** Delete *)

Lemma filter_all A (keep : A -> bool) (l : list A) :
  (forall x, In x l -> keep x = true) -> filter keep l = l.
Proof.
  induction l as [|x rest IH]; intros H; simpl.
  - reflexivity.
  - rewrite (H x (or_introl eq_refl)). f_equal. apply IH.
    intros y Hy. apply H. right. exact Hy.
Qed.

Lemma filter_twice A (keep : A -> bool) (l : list A) :
  filter keep (filter keep l) = filter keep l.
Proof.
  apply filter_all. intros x Hx. apply filter_In in Hx. tauto.
Qed.

Lemma delete_where_absent_users id s :
  ~ In id (map user_id (rows (tbl_users s))) ->
  delete_where users (eq_id users id) s = s.
Proof.
  intros Habs. unfold delete_where.
  rewrite filter_all.
  - rewrite table_eta. apply write_read_users.
  - intros r Hr. rewrite (eq_id_absent users id _ Habs r Hr). reflexivity.
Qed.

Lemma delete_where_absent_places id s :
  ~ In id (map place_id (rows (tbl_places s))) ->
  delete_where places (eq_id places id) s = s.
Proof.
  intros Habs. unfold delete_where.
  rewrite filter_all.
  - rewrite table_eta. apply write_read_places.
  - intros r Hr. rewrite (eq_id_absent places id _ Habs r Hr). reflexivity.
Qed.

Lemma deleted_id_absent R (key : R -> Z) id (l : list R) :
  ~ In id (map key (filter (fun r => negb (key r =? id)) l)).
Proof.
  intros Hin. apply in_map_iff in Hin. destruct Hin as (r & Hkey & Hr).
  apply filter_In in Hr. destruct Hr as [_ Hr].
  rewrite Hkey, Z.eqb_refl in Hr. discriminate Hr.
Qed.

(** C7.  Deleting a user or a place by id resolves for every id, whether
    or not a row carries it: the rows with that id are removed and the
    others kept; when no row matches the store is left exactly as it
    was, and deleting the same id once more changes nothing further. *)
Theorem delete_never_fails_and_is_idempotent :
  forall (s : Store) (now : Z) (id : Z),
    (exists s',
        deleteUser id (healthy s now) = (Resolved tt, healthy s' now) /\
        rows (tbl_users s') =
          filter (fun r => negb (user_id r =? id)) (rows (tbl_users s)) /\
        (~ In id (map user_id (rows (tbl_users s))) -> s' = s) /\
        deleteUser id (healthy s' now) = (Resolved tt, healthy s' now))
    /\
    (exists s',
        deletePlace id (healthy s now) = (Resolved tt, healthy s' now) /\
        rows (tbl_places s') =
          filter (fun r => negb (place_id r =? id)) (rows (tbl_places s)) /\
        (~ In id (map place_id (rows (tbl_places s))) -> s' = s) /\
        deletePlace id (healthy s' now) = (Resolved tt, healthy s' now)).
Proof.
  intros s now id. split.
  - exists (delete_where users (eq_id users id) s).
    split; [apply execute_healthy|].
    split; [reflexivity|].
    split; [apply delete_where_absent_users|].
    unfold deleteUser. rewrite execute_healthy.
    rewrite delete_where_absent_users; [reflexivity|].
    apply (deleted_id_absent user_id).
  - exists (delete_where places (eq_id places id) s).
    split; [apply execute_healthy|].
    split; [reflexivity|].
    split; [apply delete_where_absent_places|].
    unfold deletePlace. rewrite execute_healthy.
    rewrite delete_where_absent_places; [reflexivity|].
    apply (deleted_id_absent place_id).
Qed.

Lemma delete_never_fails_and_is_idempotent_witness :
  deleteUser 9 (healthy demo_store 1700000100) =
    (Resolved tt, healthy demo_store 1700000100) /\
  deletePlace 9 (healthy demo_store 1700000100) =
    (Resolved tt, healthy demo_store 1700000100).
Proof.
  destruct (delete_never_fails_and_is_idempotent demo_store 1700000100 9)
    as [(s1 & Hrun1 & _ & Hsame1 & _) (s2 & Hrun2 & _ & Hsame2 & _)].
  split.
  - rewrite Hrun1. rewrite Hsame1; [reflexivity|].
    apply not_in_demo. reflexivity.
  - rewrite Hrun2. rewrite Hsame2; [reflexivity|].
    apply not_in_demo. reflexivity.
Defined.

(** ** Identifiers stay below the sequence *)

Lemma well_sequenced_empty : well_sequenced empty_store.
Proof. repeat split; constructor. Qed.

Section SequenceFacts.
Variable R : Type.
Variable key : R -> Z.

Lemma in_sequence_insert (tb : Table R) (r : R) :
  key r = next_id tb ->
  in_sequence key tb ->
  in_sequence key {| rows := rows tb ++ [r]; next_id := next_id tb + 1 |}.
Proof.
  unfold in_sequence; simpl. intros Hkey Hseq.
  apply Forall_app. split.
  - eapply Forall_impl; [|exact Hseq]. simpl. intros; lia.
  - constructor; [lia | constructor].
Qed.

Lemma in_sequence_update (tb : Table R) (cond : R -> bool) (f : R -> R) :
  (forall r, key (f r) = key r) ->
  in_sequence key tb ->
  in_sequence key
    {| rows := map (fun r => if cond r then f r else r) (rows tb);
       next_id := next_id tb |}.
Proof.
  unfold in_sequence; simpl. intros Hkey Hseq.
  apply Forall_map. eapply Forall_impl; [|exact Hseq].
  simpl. intros r Hr. destruct (cond r); [rewrite Hkey|]; exact Hr.
Qed.

Lemma in_sequence_delete (tb : Table R) (cond : R -> bool) :
  in_sequence key tb ->
  in_sequence key
    {| rows := filter (fun r => negb (cond r)) (rows tb);
       next_id := next_id tb |}.
Proof.
  unfold in_sequence; simpl. intros Hseq.
  apply Forall_forall. intros r Hr. apply filter_In in Hr.
  rewrite Forall_forall in Hseq. apply Hseq. tauto.
Qed.

(** A fresh identifier selects the inserted row and nothing else. *)
Lemma select_inserted (tb : Table R) (r : R) :
  key r = next_id tb ->
  in_sequence key tb ->
  filter (fun x => key x =? next_id tb) (rows tb ++ [r]) = [r].
Proof.
  intros Hkey Hseq. rewrite filter_app. simpl.
  rewrite Hkey, Z.eqb_refl. rewrite filter_none; [reflexivity|].
  intros x Hx. unfold in_sequence in Hseq. rewrite Forall_forall in Hseq.
  apply Z.eqb_neq. specialize (Hseq x Hx). lia.
Qed.
End SequenceFacts.

Lemma keeps_sequence_resolve A (a : A) : keeps_sequence (resolve a).
Proof. intros w H. exact H. Qed.

Lemma keeps_sequence_await A B (p : Promise A) (k : A -> Promise B) :
  keeps_sequence p -> (forall a, keeps_sequence (k a)) ->
  keeps_sequence (await p k).
Proof.
  intros Hp Hk w Hw. unfold await.
  specialize (Hp w Hw). destruct (p w) as [[a|e] w']; simpl in *.
  - apply Hk. exact Hp.
  - exact Hp.
Qed.

Lemma keeps_sequence_round_trip A (q : Z -> Store -> A * Store) :
  (forall now s, well_sequenced s -> well_sequenced (snd (q now s))) ->
  keeps_sequence (round_trip q).
Proof.
  intros Hq w Hw.
  destruct (round_trip_cases q w) as [H|H]; rewrite H; simpl.
  - exact Hw.
  - apply Hq. exact Hw.
Qed.

Lemma keeps_sequence_query A (q : Store -> A) : keeps_sequence (query q).
Proof. apply keeps_sequence_round_trip. intros now s H. exact H. Qed.

Create HintDb sequence.
#[local] Hint Resolve keeps_sequence_resolve keeps_sequence_query : sequence.

Ltac sequence_step :=
  match goal with
  | |- keeps_sequence (await _ _) => apply keeps_sequence_await; [|intros ?]
  | |- keeps_sequence (round_trip _) =>
      apply keeps_sequence_round_trip;
      let now := fresh "now" in let s := fresh "s" in let H := fresh "H" in
      intros now s H; destruct H as (? & ? & ? & ? & ? & ?);
      repeat split; simpl; try assumption
  | |- keeps_sequence (execute _) => unfold execute
  | |- keeps_sequence _ => solve [auto with sequence]
  end.

Lemma createUser_keeps_sequence user : keeps_sequence (createUser user).
Proof.
  unfold createUser. repeat sequence_step.
  apply in_sequence_insert; [reflexivity | assumption].
Qed.

Lemma createPlace_keeps_sequence place : keeps_sequence (createPlace place).
Proof.
  unfold createPlace. repeat sequence_step.
  apply in_sequence_insert; [reflexivity | assumption].
Qed.

Lemma createPlaylist_keeps_sequence playlist :
  keeps_sequence (createPlaylist playlist).
Proof.
  unfold createPlaylist. repeat sequence_step.
  apply in_sequence_insert; [reflexivity | assumption].
Qed.

Lemma createTrip_keeps_sequence trip : keeps_sequence (createTrip trip).
Proof.
  unfold createTrip. repeat sequence_step.
  apply in_sequence_insert; [reflexivity | assumption].
Qed.

Lemma createReview_keeps_sequence review : keeps_sequence (createReview review).
Proof.
  unfold createReview. repeat sequence_step.
  apply in_sequence_insert; [reflexivity | assumption].
Qed.

Lemma createPhoto_keeps_sequence photo : keeps_sequence (createPhoto photo).
Proof.
  unfold createPhoto. repeat sequence_step.
  apply in_sequence_insert; [reflexivity | assumption].
Qed.

Lemma updateUserStatus_keeps_sequence id status :
  keeps_sequence (updateUserStatus id status).
Proof.
  unfold updateUserStatus. repeat sequence_step.
  apply in_sequence_update; [reflexivity | assumption].
Qed.

Lemma updatePlaylistStatus_keeps_sequence id status :
  keeps_sequence (updatePlaylistStatus id status).
Proof.
  unfold updatePlaylistStatus. repeat sequence_step.
  apply in_sequence_update; [reflexivity | assumption].
Qed.

Lemma updateReviewStatus_keeps_sequence id status :
  keeps_sequence (updateReviewStatus id status).
Proof.
  unfold updateReviewStatus. repeat sequence_step.
  apply in_sequence_update; [reflexivity | assumption].
Qed.

Lemma updatePhotoStatus_keeps_sequence id status :
  keeps_sequence (updatePhotoStatus id status).
Proof.
  unfold updatePhotoStatus. repeat sequence_step.
  apply in_sequence_update; [reflexivity | assumption].
Qed.

Lemma deleteUser_keeps_sequence id : keeps_sequence (deleteUser id).
Proof.
  unfold deleteUser. repeat sequence_step.
  apply in_sequence_delete. assumption.
Qed.

Lemma deletePlace_keeps_sequence id : keeps_sequence (deletePlace id).
Proof.
  unfold deletePlace. repeat sequence_step.
  apply in_sequence_delete. assumption.
Qed.

Lemma keeps_sequence_throw A (e : Exception) : keeps_sequence (@throw A e).
Proof. intros w H. exact H. Qed.

Lemma keeps_sequence_field R A (k : R -> A) (o : option R) :
  keeps_sequence (field k o).
Proof.
  destruct o; [apply keeps_sequence_resolve | apply keeps_sequence_throw].
Qed.

Lemma keeps_sequence_try_catch A (p : Promise A) (handler : Exception -> Promise A) :
  keeps_sequence p -> (forall e, keeps_sequence (handler e)) ->
  keeps_sequence (try_catch p handler).
Proof.
  intros Hp Hh w Hw. unfold try_catch.
  specialize (Hp w Hw). destruct (p w) as [[a|e] w']; simpl in *.
  - exact Hp.
  - apply Hh. exact Hp.
Qed.

#[local] Hint Resolve keeps_sequence_field
  createUser_keeps_sequence createPlace_keeps_sequence
  createPlaylist_keeps_sequence createTrip_keeps_sequence
  createReview_keeps_sequence createPhoto_keeps_sequence : sequence.

(** Seeding, complete or cut short, keeps the invariant. *)
Lemma seedDatabase_keeps_sequence JSON_stringify :
  keeps_sequence (seedDatabase JSON_stringify).
Proof.
  unfold seedDatabase. apply keeps_sequence_try_catch.
  - apply keeps_sequence_await; [apply keeps_sequence_query|].
    intros users0. destruct (List.length users0 =? 0)%nat.
    + repeat sequence_step.
    + apply keeps_sequence_resolve.
  - intros e. apply keeps_sequence_resolve.
Qed.

Lemma demo_store_well_sequenced : well_sequenced demo_store.
Proof.
  unfold well_sequenced, in_sequence. simpl.
  repeat split; repeat constructor.
Qed.

(** ** Create, then read back *)

Lemma createUser_healthy user s now :
  createUser user (healthy s now) =
  (Resolved (Some (stored_user (next_id (tbl_users s)) now user)),
   healthy (snd (insert_returning users user now s)) now).
Proof.
  unfold createUser, await. rewrite round_trip_healthy. reflexivity.
Qed.

Lemma createPlace_healthy place s now :
  createPlace place (healthy s now) =
  (Resolved (Some (stored_place (next_id (tbl_places s)) now place)),
   healthy (snd (insert_returning places place now s)) now).
Proof.
  unfold createPlace, await. rewrite round_trip_healthy. reflexivity.
Qed.

Lemma createPlaylist_healthy playlist s now :
  createPlaylist playlist (healthy s now) =
  (Resolved (Some (stored_playlist (next_id (tbl_playlists s)) now playlist)),
   healthy (snd (insert_returning playlists playlist now s)) now).
Proof.
  unfold createPlaylist, await. rewrite round_trip_healthy. reflexivity.
Qed.

Lemma createTrip_healthy trip s now :
  createTrip trip (healthy s now) =
  (Resolved (Some (stored_trip (next_id (tbl_trips s)) now trip)),
   healthy (snd (insert_returning trips trip now s)) now).
Proof.
  unfold createTrip, await. rewrite round_trip_healthy. reflexivity.
Qed.

Lemma createReview_healthy review s now :
  createReview review (healthy s now) =
  (Resolved (Some (stored_review (next_id (tbl_reviews s)) now review)),
   healthy (snd (insert_returning reviews review now s)) now).
Proof.
  unfold createReview, await. rewrite round_trip_healthy. reflexivity.
Qed.

Lemma createPhoto_healthy photo s now :
  createPhoto photo (healthy s now) =
  (Resolved (Some (stored_photo (next_id (tbl_photos s)) now photo)),
   healthy (snd (insert_returning photos photo now s)) now).
Proof.
  unfold createPhoto, await. rewrite round_trip_healthy. reflexivity.
Qed.

Lemma createUser_appends v items n tp tl tt tr tf now :
  createUser v
    (healthy
       {| tbl_users := {| rows := items; next_id := n |};
          tbl_places := tp;
          tbl_playlists := tl;
          tbl_trips := tt;
          tbl_reviews := tr;
          tbl_photos := tf |} now) =
  (Resolved (Some (stored_user n now v)),
   healthy
     {| tbl_users :=
          {| rows := items ++ [stored_user n now v]; next_id := n + 1 |};
        tbl_places := tp;
        tbl_playlists := tl;
        tbl_trips := tt;
        tbl_reviews := tr;
        tbl_photos := tf |} now).
Proof. apply createUser_healthy. Qed.

Lemma createPlace_appends v items n tu tl tt tr tf now :
  createPlace v
    (healthy
       {| tbl_users := tu;
          tbl_places := {| rows := items; next_id := n |};
          tbl_playlists := tl;
          tbl_trips := tt;
          tbl_reviews := tr;
          tbl_photos := tf |} now) =
  (Resolved (Some (stored_place n now v)),
   healthy
     {| tbl_users := tu;
        tbl_places :=
          {| rows := items ++ [stored_place n now v]; next_id := n + 1 |};
        tbl_playlists := tl;
        tbl_trips := tt;
        tbl_reviews := tr;
        tbl_photos := tf |} now).
Proof. apply createPlace_healthy. Qed.

Lemma createPlaylist_appends v items n tu tp tt tr tf now :
  createPlaylist v
    (healthy
       {| tbl_users := tu;
          tbl_places := tp;
          tbl_playlists := {| rows := items; next_id := n |};
          tbl_trips := tt;
          tbl_reviews := tr;
          tbl_photos := tf |} now) =
  (Resolved (Some (stored_playlist n now v)),
   healthy
     {| tbl_users := tu;
        tbl_places := tp;
        tbl_playlists :=
          {| rows := items ++ [stored_playlist n now v]; next_id := n + 1 |};
        tbl_trips := tt;
        tbl_reviews := tr;
        tbl_photos := tf |} now).
Proof. apply createPlaylist_healthy. Qed.

Lemma createTrip_appends v items n tu tp tl tr tf now :
  createTrip v
    (healthy
       {| tbl_users := tu;
          tbl_places := tp;
          tbl_playlists := tl;
          tbl_trips := {| rows := items; next_id := n |};
          tbl_reviews := tr;
          tbl_photos := tf |} now) =
  (Resolved (Some (stored_trip n now v)),
   healthy
     {| tbl_users := tu;
        tbl_places := tp;
        tbl_playlists := tl;
        tbl_trips :=
          {| rows := items ++ [stored_trip n now v]; next_id := n + 1 |};
        tbl_reviews := tr;
        tbl_photos := tf |} now).
Proof. apply createTrip_healthy. Qed.

Lemma createReview_appends v items n tu tp tl tt tf now :
  createReview v
    (healthy
       {| tbl_users := tu;
          tbl_places := tp;
          tbl_playlists := tl;
          tbl_trips := tt;
          tbl_reviews := {| rows := items; next_id := n |};
          tbl_photos := tf |} now) =
  (Resolved (Some (stored_review n now v)),
   healthy
     {| tbl_users := tu;
        tbl_places := tp;
        tbl_playlists := tl;
        tbl_trips := tt;
        tbl_reviews :=
          {| rows := items ++ [stored_review n now v]; next_id := n + 1 |};
        tbl_photos := tf |} now).
Proof. apply createReview_healthy. Qed.

Lemma createPhoto_appends v items n tu tp tl tt tr now :
  createPhoto v
    (healthy
       {| tbl_users := tu;
          tbl_places := tp;
          tbl_playlists := tl;
          tbl_trips := tt;
          tbl_reviews := tr;
          tbl_photos := {| rows := items; next_id := n |} |} now) =
  (Resolved (Some (stored_photo n now v)),
   healthy
     {| tbl_users := tu;
        tbl_places := tp;
        tbl_playlists := tl;
        tbl_trips := tt;
        tbl_reviews := tr;
        tbl_photos :=
          {| rows := items ++ [stored_photo n now v]; next_id := n + 1 |} |} now).
Proof. apply createPhoto_healthy. Qed.

Lemma field_some R A (k : R -> A) (r : R) w :
  field k (Some r) w = (Resolved (k r), w).
Proof. reflexivity. Qed.

(** C6.  On a store whose identifiers lie below their sequence (every
    store the operations can reach), creating a user, and likewise a
    place, resolves to a stored row; reading that row back by its id
    yields the very same row, and each caller-supplied field of it
    equals the field of the input record. *)
Theorem create_then_get_by_id :
  forall (s : Store) (now : Z),
    (forall user : InsertUser,
       in_sequence user_id (tbl_users s) ->
       exists u s',
         createUser user (healthy s now) = (Resolved (Some u), healthy s' now) /\
         getUser (user_id u) (healthy s' now) =
           (Resolved (Some u), healthy s' now) /\
         user_name u = new_user_name user /\
         user_email u = new_user_email user /\
         user_role u = new_user_role user /\
         user_status u = new_user_status user)
    /\
    (forall place : InsertPlace,
       in_sequence place_id (tbl_places s) ->
       exists p s',
         createPlace place (healthy s now) = (Resolved (Some p), healthy s' now) /\
         getPlace (place_id p) (healthy s' now) =
           (Resolved (Some p), healthy s' now) /\
         place_name p = new_place_name place /\
         place_description p = new_place_description place /\
         place_location p = new_place_location place /\
         place_category p = new_place_category place /\
         place_imageUrl p = new_place_imageUrl place /\
         place_rating p = new_place_rating place /\
         place_status p = new_place_status place /\
         place_amenities p = new_place_amenities place /\
         place_coordinates p = new_place_coordinates place).
Proof.
  intros s now. split.
  - intros user Hseq. do 2 eexists.
    split; [apply createUser_healthy|].
    split; [|repeat split; reflexivity].
    rewrite getUser_healthy. simpl.
    unfold eq_id; simpl.
    rewrite (@select_inserted User user_id (tbl_users s)
               (stored_user (next_id (tbl_users s)) now user) eq_refl Hseq).
    reflexivity.
  - intros place Hseq. do 2 eexists.
    split; [apply createPlace_healthy|].
    split; [|repeat split; reflexivity].
    rewrite getPlace_healthy. simpl.
    unfold eq_id; simpl.
    rewrite (@select_inserted Place place_id (tbl_places s)
               (stored_place (next_id (tbl_places s)) now place) eq_refl Hseq).
    reflexivity.
Qed.

Lemma create_then_get_by_id_witness :
  (exists u s',
      createUser {| new_user_name := "C"; new_user_email := "c@example.com";
                    new_user_role := "admin"; new_user_status := "active" |}
                 (healthy demo_store 1700000100) =
        (Resolved (Some u), healthy s' 1700000100) /\
      getUser (user_id u) (healthy s' 1700000100) =
        (Resolved (Some u), healthy s' 1700000100) /\
      user_name u = "C") /\
  (exists p s',
      createPlace {| new_place_name := "Fort"; new_place_description := "Ramparts";
                     new_place_location := "Galle"; new_place_category := "Cultural";
                     new_place_imageUrl := "https://example.com/fort.jpg";
                     new_place_rating := "4.6"; new_place_status := "active";
                     new_place_amenities := "[]"; new_place_coordinates := "{}" |}
                  (healthy demo_store 1700000100) =
        (Resolved (Some p), healthy s' 1700000100) /\
      getPlace (place_id p) (healthy s' 1700000100) =
        (Resolved (Some p), healthy s' 1700000100) /\
      place_name p = "Fort").
Proof.
  split.
  - destruct (proj1 (create_then_get_by_id demo_store 1700000100)
                {| new_user_name := "C"; new_user_email := "c@example.com";
                   new_user_role := "admin"; new_user_status := "active" |}
                (proj1 demo_store_well_sequenced))
      as (u & s' & Hc & Hg & Hn & _).
    exists u, s'. repeat split; assumption.
  - destruct (proj2 (create_then_get_by_id demo_store 1700000100)
                {| new_place_name := "Fort"; new_place_description := "Ramparts";
                   new_place_location := "Galle"; new_place_category := "Cultural";
                   new_place_imageUrl := "https://example.com/fort.jpg";
                   new_place_rating := "4.6"; new_place_status := "active";
                   new_place_amenities := "[]"; new_place_coordinates := "{}" |}
                (proj1 (proj2 demo_store_well_sequenced)))
      as (p & s' & Hc & Hg & Hn & _).
    exists p, s'. repeat split; assumption.
Defined.

(** ** Validation failures on the create routes *)

Lemma places_create_parses_normalized schema JSON_stringify body w :
  body <> JNull ->
  places_create schema JSON_stringify body w =
  try_catch
    (input <- parse schema (normalized_place_body JSON_stringify body) ;;
     place <- createPlace input ;;
     resolve (status_json 201 place))
    (fun err =>
       match err with
       | ZodError errors =>
           first_issue <- field issue_message (first errors) ;;
           resolve (status_message 400 first_issue)
       | _ => throw err
       end) w.
Proof.
  intros Hbody. unfold places_create, try_catch.
  destruct body as [| b | x | str | items | members];
    try contradiction; try reflexivity.
  unfold await at 1. simpl.
  destruct (member "coordinates" members) as [[| b | x | str | items | ms]|];
    simpl; rewrite ?andb_false_r; unfold await at 1; simpl;
    match goal with
    | |- context [member "amenities" ?m] =>
        destruct (member "amenities" m) as [[| b' | x' | str' | items' | ms']|]
    end;
    simpl; rewrite ?andb_false_r; reflexivity.
Qed.

(** X11.  The places route turns a validation failure into a 400 answer
    that carries the first issue's message: for every body other than
    [null] that the schema refuses once normalized, in every world, the
    route resolves to status 400 with that message, makes no round trip
    and writes nothing. *)
Lemma places_create_invalid_body schema JSON_stringify body issue more w :
  body <> JNull ->
  schema (normalized_place_body JSON_stringify body) = Failure (issue :: more) ->
  places_create schema JSON_stringify body w =
  (Resolved {| status_code := 400; payload := Message (issue_message issue) |}, w).
Proof.
  intros Hbody Hfail. rewrite places_create_parses_normalized by exact Hbody.
  unfold try_catch, await, parse. rewrite Hfail. reflexivity.
Qed.

(** C3.  The playlists create route does not answer 400 on a body its
    schema refuses: [parse] throws outside any [try], so the handler
    rejects with the validation error, which goes to the generic error
    path; no response is written and nothing is stored.  (The places
    create route does answer 400, see [places_create_invalid_body].) *)
Theorem playlists_create_invalid_body_rejects :
  forall (schema : Json -> Parsed InsertPlaylist) (body : Json)
         (errors : list ZodIssue) (w : World),
    schema body = Failure errors ->
    playlists_create schema body w = (Rejected (ZodError errors), w).
Proof.
  intros schema body errors w Hfail.
  unfold playlists_create, await, parse. rewrite Hfail. reflexivity.
Qed.

Lemma playlists_create_invalid_body_rejects_witness :
  playlists_create demo_playlist_schema (JObject [])
    (healthy demo_store 1700000100) =
  (Rejected (ZodError [{| issue_path := ["name"]; issue_message := "Required" |}]),
   healthy demo_store 1700000100).
Proof.
  apply (playlists_create_invalid_body_rejects demo_playlist_schema (JObject [])).
  reflexivity.
Defined.

(** ** Seeding *)

Lemma orderBy_desc_nonempty R (column : R -> Z) (l : list R) :
  l <> [] -> (List.length (orderBy_desc column l) =? 0)%nat = false.
Proof.
  intros Hl. rewrite orderBy_desc_length.
  destruct l; [contradiction | reflexivity].
Qed.

(** C9.  [seedDatabase] never rejects, whatever fails on the way.  When
    the user table holds a row it leaves the store as it is.  When the
    user table is empty and the store reachable, it appends exactly four
    users, three places, two playlists, three trips, two reviews and one
    photo, and the rows that refer to a user or a place carry the id
    (and name) the earlier insert returned. *)
Theorem seedDatabase_behaviour :
  forall JSON_stringify : Json -> string,
    (forall w : World, fst (seedDatabase JSON_stringify w) = Resolved tt)
    /\
    (forall w : World,
       rows (tbl_users (store w)) <> [] ->
       store (snd (seedDatabase JSON_stringify w)) = store w)
    /\
    (forall (s : Store) (now : Z),
       rows (tbl_users s) = [] ->
       exists u1 u2 u3 u4 p1 p2 p3 l1 l2 t1 t2 t3 r1 r2 f1 s',
         seedDatabase JSON_stringify (healthy s now) =
           (Resolved tt, healthy s' now) /\
         rows (tbl_users s') = [u1; u2; u3; u4] /\
         rows (tbl_places s') = (rows (tbl_places s) ++ [p1; p2; p3])%list /\
         rows (tbl_playlists s') = (rows (tbl_playlists s) ++ [l1; l2])%list /\
         rows (tbl_trips s') = (rows (tbl_trips s) ++ [t1; t2; t3])%list /\
         rows (tbl_reviews s') = (rows (tbl_reviews s) ++ [r1; r2])%list /\
         rows (tbl_photos s') = (rows (tbl_photos s) ++ [f1])%list /\
         playlist_creatorId l1 = user_id u3 /\
         playlist_creatorName l1 = user_name u3 /\
         playlist_creatorId l2 = user_id u2 /\
         playlist_creatorName l2 = user_name u2 /\
         trip_userId t1 = user_id u1 /\
         trip_userId t2 = user_id u2 /\
         trip_userId t3 = user_id u1 /\
         review_userId r1 = user_id u1 /\
         review_userName r1 = user_name u1 /\
         review_placeId r1 = place_id p1 /\
         review_placeName r1 = place_name p1 /\
         review_userId r2 = user_id u2 /\
         review_userName r2 = user_name u2 /\
         review_placeId r2 = place_id p2 /\
         review_placeName r2 = place_name p2 /\
         photo_uploaderId f1 = user_id u1 /\
         photo_uploaderName f1 = user_name u1 /\
         photo_relatedId f1 = place_id p1).
Proof.
  intros JSON_stringify. repeat apply conj.
  - intros w. unfold seedDatabase, try_catch.
    match goal with
    | |- fst (match ?run with _ => _ end) = _ =>
        destruct run as [[[]|e] w']; reflexivity
    end.
  - intros w Hrows. unfold seedDatabase, try_catch, await, getUsers, query.
    destruct (round_trip_cases
                (fun (_ : Z) (s : Store) =>
                   (orderBy_desc user_joinedAt (select_from users s), s)) w)
      as [H|H]; rewrite H; simpl.
    + reflexivity.
    + unfold select_from; simpl.
      rewrite orderBy_desc_nonempty by exact Hrows. reflexivity.
  - intros s now Hempty.
    destruct s as [[urows un] [prows pn] [lrows ln] [trows tn] [rrows rn]
                   [frows fn]].
    simpl in Hempty. subst urows.
    unfold seedDatabase, try_catch.
    erewrite await_resolved by apply getUsers_healthy.
    cbn [orderBy_desc List.length Nat.eqb rows tbl_users].
    repeat first
      [ erewrite await_resolved by apply createUser_appends
      | erewrite await_resolved by apply createPlace_appends
      | erewrite await_resolved by apply createPlaylist_appends
      | erewrite await_resolved by apply createTrip_appends
      | erewrite await_resolved by apply createReview_appends
      | erewrite await_resolved by apply createPhoto_appends
      | erewrite await_resolved by apply field_some ].
    unfold resolve.
    do 16 eexists.
    split; [reflexivity|].
    cbn [rows tbl_users tbl_places tbl_playlists tbl_trips tbl_reviews
         tbl_photos].
    rewrite <- !app_assoc. cbn [app].
    repeat split; reflexivity.
Qed.

Lemma seedDatabase_behaviour_witness :
  (exists s',
      seedDatabase demo_stringify (healthy empty_store 1700000000) =
        (Resolved tt, healthy s' 1700000000) /\
      List.length (rows (tbl_users s')) = 4%nat /\
      List.length (rows (tbl_places s')) = 3%nat /\
      List.length (rows (tbl_playlists s')) = 2%nat /\
      List.length (rows (tbl_trips s')) = 3%nat /\
      List.length (rows (tbl_reviews s')) = 2%nat /\
      List.length (rows (tbl_photos s')) = 1%nat) /\
  store (snd (seedDatabase demo_stringify (healthy seeded_store 1700000100))) =
    seeded_store.
Proof.
  destruct (seedDatabase_behaviour demo_stringify) as (Hnever & Hkeep & Hfill).
  split.
  - destruct (Hfill empty_store 1700000000 eq_refl)
      as (u1 & u2 & u3 & u4 & p1 & p2 & p3 & l1 & l2 & t1 & t2 & t3 & r1 & r2
          & f1 & s' & Hrun & Hu & Hp & Hl & Ht & Hr & Hf & _).
    exists s'. split; [exact Hrun|].
    rewrite Hu, Hp, Hl, Ht, Hr, Hf. repeat split.
  - apply (Hkeep (healthy seeded_store 1700000100)). discriminate.
Defined.

(** The seeded store, as the dashboard and the moderation queue see it. *)
Example seeded_dashboard :
  getDashboardStats (healthy seeded_store 1700000100) =
  (Resolved {| totalTrips := 3; totalPlaylists := 2; totalPlaces := 3;
               activeUsers := 3; pendingReviews := 1 |},
   healthy seeded_store 1700000100).
Proof. reflexivity. Qed.

Example seeded_references :
  map playlist_creatorId (rows (tbl_playlists seeded_store)) = [3; 2] /\
  map trip_userId (rows (tbl_trips seeded_store)) = [1; 2; 1] /\
  map review_placeId (rows (tbl_reviews seeded_store)) = [1; 2] /\
  map photo_relatedId (rows (tbl_photos seeded_store)) = [1] /\
  map place_amenities (rows (tbl_places seeded_store)) =
    [demo_stringify (JArray [JString "Parking"; JString "WiFi"; JString "Restrooms"]);
     demo_stringify (JArray [JString "Guide Available"; JString "Hiking"]);
     demo_stringify (JArray [JString "Guide Available"])].
Proof. repeat split. Qed.

(** A seeding cut short by an outage at the third round trip: the error
    is swallowed, and the one user already inserted stays. *)
Example seeding_cut_short :
  let w := {| store := empty_store; clock := 1700000000;
              outages := [false; false; true] |} in
  fst (seedDatabase demo_stringify w) = Resolved tt /\
  map user_name (rows (tbl_users (store (snd (seedDatabase demo_stringify w))))) =
    ["Sarah Miller"] /\
  rows (tbl_places (store (snd (seedDatabase demo_stringify w)))) = [].
Proof. vm_compute. repeat split. Qed.

(* ================================================================== *)
(** * The activity series: binary64 arithmetic *)
(* ================================================================== *)

(** ** Shifting and rounding a mantissa *)

Unset Implicit Arguments.

Lemma pow2_pred (d : Z) : 0 < d -> 2 ^ d = 2 * 2 ^ (d - 1).
Proof.
  intros Hd. rewrite <- Z.pow_succ_r by lia. f_equal. lia.
Qed.

Lemma pow2_pos (k : Z) : 0 <= k -> 0 < 2 ^ k.
Proof. intros Hk. apply Z.pow_pos_nonneg; lia. Qed.

Lemma digits2_pos_bounds (p : positive) :
  2 ^ (Z.pos (digits2_pos p) - 1) <= Z.pos p < 2 ^ Z.pos (digits2_pos p).
Proof.
  induction p as [p IH | p IH |]; simpl digits2_pos.
  - rewrite Pos2Z.inj_succ.
    replace (Z.succ (Z.pos (digits2_pos p)) - 1) with (Z.pos (digits2_pos p)) by lia.
    rewrite Z.pow_succ_r by lia.
    rewrite (pow2_pred (Z.pos (digits2_pos p))) in * by lia.
    lia.
  - rewrite Pos2Z.inj_succ.
    replace (Z.succ (Z.pos (digits2_pos p)) - 1) with (Z.pos (digits2_pos p)) by lia.
    rewrite Z.pow_succ_r by lia.
    rewrite (pow2_pred (Z.pos (digits2_pos p))) in * by lia.
    lia.
  - simpl. lia.
Qed.

Lemma digits2_pos_le (p : positive) (k : Z) :
  Z.pos p < 2 ^ k -> Z.pos (digits2_pos p) <= k.
Proof.
  intros Hp.
  destruct (Z.le_gt_cases (Z.pos (digits2_pos p)) k) as [H|H]; [exact H|].
  exfalso.
  assert (Hk : 0 <= k).
  { destruct (Z.neg_nonneg_cases k) as [Hneg|]; [|assumption].
    rewrite Z.pow_neg_r in Hp by assumption. lia. }
  pose proof (digits2_pos_bounds p) as [Hlo _].
  assert (2 ^ k <= 2 ^ (Z.pos (digits2_pos p) - 1)).
  { apply Z.pow_le_mono_r; lia. }
  lia.
Qed.

(** shr_1 halves the mantissa and remembers the bit it drops. *)
Lemma shr_1_m (mrs : shr_record) :
  0 <= shr_m mrs -> shr_m (shr_1 mrs) = shr_m mrs / 2.
Proof.
  destruct mrs as [m r s]. simpl. intros Hm.
  destruct m as [|p|p]; [reflexivity | | lia].
  destruct p as [p|p|]; simpl.
  - rewrite Pos2Z.inj_xI. apply Z.div_unique with (r := 1); lia.
  - rewrite Pos2Z.inj_xO. apply Z.div_unique with (r := 0); lia.
  - reflexivity.
Qed.

Lemma shr_1_r (mrs : shr_record) :
  0 <= shr_m mrs -> shr_r (shr_1 mrs) = Z.odd (shr_m mrs).
Proof.
  destruct mrs as [m r s]. simpl. intros Hm.
  destruct m as [|p|p]; [reflexivity | | lia].
  destruct p as [p|p|]; reflexivity.
Qed.

Lemma shr_1_nonneg (mrs : shr_record) :
  0 <= shr_m mrs -> 0 <= shr_m (shr_1 mrs).
Proof.
  intros H. rewrite shr_1_m by exact H. apply Z.div_pos; lia.
Qed.

Lemma div_pow2_pow2 (a i j : Z) :
  0 <= i -> 0 <= j -> a / 2 ^ i / 2 ^ j = a / 2 ^ (i + j).
Proof.
  intros Hi Hj. rewrite Z.pow_add_r by assumption.
  apply Z.div_div; try apply pow2_pos; try assumption.
  pose proof (pow2_pos i Hi). lia.
Qed.

Lemma iter_shr_1 (p : positive) : forall mrs : shr_record,
  0 <= shr_m mrs ->
  shr_m (iter_pos shr_1 p mrs) = shr_m mrs / 2 ^ Z.pos p /\
  shr_r (iter_pos shr_1 p mrs) = Z.odd (shr_m mrs / 2 ^ (Z.pos p - 1)).
Proof.
  induction p as [p IH | p IH |]; intros mrs Hm; simpl iter_pos.
  - pose proof (shr_1_nonneg mrs Hm) as H1.
    destruct (IH (shr_1 mrs) H1) as [Ha Hb].
    assert (H2 : 0 <= shr_m (iter_pos shr_1 p (shr_1 mrs))).
    { rewrite Ha. apply Z.div_pos; [lia | apply pow2_pos; lia]. }
    destruct (IH _ H2) as [Hc Hd].
    rewrite Hc, Hd, Ha, (shr_1_m mrs Hm).
    change (shr_m mrs / 2) with (shr_m mrs / 2 ^ 1).
    rewrite !div_pow2_pow2 by lia.
    rewrite Pos2Z.inj_xI.
    split; [do 2 f_equal | do 3 f_equal]; lia.
  - destruct (IH mrs Hm) as [Ha Hb].
    assert (H2 : 0 <= shr_m (iter_pos shr_1 p mrs)).
    { rewrite Ha. apply Z.div_pos; [lia | apply pow2_pos; lia]. }
    destruct (IH _ H2) as [Hc Hd].
    rewrite Hc, Hd, Ha.
    rewrite !div_pow2_pow2 by lia.
    rewrite Pos2Z.inj_xO.
    split; [do 2 f_equal | do 3 f_equal]; lia.
  - split.
    + rewrite shr_1_m by exact Hm. reflexivity.
    + rewrite shr_1_r by exact Hm. simpl. rewrite Z.div_1_r. reflexivity.
Qed.

Lemma fexp_binary64 (x : Z) : fexp prec emax x = Z.max (x - 53) (-1074).
Proof. reflexivity. Qed.

Lemma Zdigits2_le (m k : Z) : 0 <= m < 2 ^ k -> 0 <= k -> Zdigits2 m <= k.
Proof.
  intros [Hlo Hhi] Hk. destruct m as [|p|p]; simpl.
  - exact Hk.
  - apply digits2_pos_le. exact Hhi.
  - lia.
Qed.

Lemma round_nearest_even_bounds (mrs : shr_record) :
  let m1 := round_nearest_even (shr_m mrs) (loc_of_shr_record mrs) in
  (m1 = shr_m mrs) \/ (m1 = shr_m mrs + 1 /\ shr_r mrs = true).
Proof.
  destruct mrs as [m [|] [|]]; simpl; auto.
  destruct (Z.even m); auto.
Qed.

(** Rounding to nearest at [k] dropped bits overshoots by at most half
    a unit of the kept mantissa. *)
Lemma round_up_half (P k : Z) :
  0 <= P -> 0 < k -> Z.odd (P / 2 ^ (k - 1)) = true ->
  (P / 2 ^ k + 1) * 2 ^ k <= P + 2 ^ (k - 1).
Proof.
  intros HP Hk Hodd.
  pose proof (pow2_pos (k - 1) ltac:(lia)) as Hpow.
  rewrite (pow2_pred k) by lia.
  set (h := 2 ^ (k - 1)) in *.
  set (a := P / h) in *.
  assert (Ha : P / (2 * h) = a / 2).
  { unfold a. rewrite Z.mul_comm. symmetry. apply Z.div_div; lia. }
  rewrite Ha.
  pose proof (Z.div_mod P h ltac:(lia)) as HP'. fold a in HP'.
  pose proof (Z.mod_pos_bound P h Hpow) as HPm.
  pose proof (Z.div_mod a 2 ltac:(lia)) as Ha'.
  rewrite Zmod_odd, Hodd in Ha'.
  nia.
Qed.

Lemma shr_exact_spec (m e n : Z) :
  0 <= m ->
  exists m' e',
    shr (shr_record_of_loc m loc_Exact) e n =
      ({| shr_m := m'; shr_r := shr_r (fst (shr (shr_record_of_loc m loc_Exact) e n));
          shr_s := shr_s (fst (shr (shr_record_of_loc m loc_Exact) e n)) |}, e') /\
    e' = e + Z.max n 0 /\
    m' = m / 2 ^ (Z.max n 0) /\
    (0 < n -> shr_r (fst (shr (shr_record_of_loc m loc_Exact) e n)) =
              Z.odd (m / 2 ^ (n - 1))).
Proof.
  intros Hm. unfold shr. simpl shr_record_of_loc.
  destruct n as [|k|k].
  - exists m, e. simpl. rewrite Z.div_1_r. repeat split; try lia.
  - destruct (iter_shr_1 k {| shr_m := m; shr_r := false; shr_s := false |} Hm)
      as [Ha Hb]. simpl shr_m in Ha, Hb.
    exists (m / 2 ^ Z.pos k), (e + Z.pos k). simpl fst.
    rewrite Z.max_l by lia.
    repeat split.
    + rewrite <- Ha.
      destruct (iter_pos shr_1 k {| shr_m := m; shr_r := false; shr_s := false |});
        reflexivity.
    + intros _. exact Hb.
  - exists m, e. simpl. rewrite Z.div_1_r. repeat split; try lia.
Qed.

Lemma binary_round_aux_exact (P : positive) (E : Z) :
  let e1 := Z.max E (fexp prec emax (Zdigits2 (Z.pos P) + E)) in
  exists m2 e2,
    binary_round_aux prec emax false (Z.pos P) E loc_Exact = assembled m2 e2 /\
    0 <= m2 /\ E <= e2 <= e1 + 1 /\
    m2 * 2 ^ (e2 - E) <= Z.pos P + 2 ^ (e1 - E) / 2.
Proof.
  intros e1. unfold binary_round_aux, shr_fexp.
  set (d := Zdigits2 (Z.pos P)) in *.
  set (n := fexp prec emax (d + E) - E).
  assert (He1 : e1 = E + Z.max n 0) by (unfold e1, n; lia).
  assert (Hd : Z.pos P < 2 ^ d /\ 0 < d).
  { unfold d. simpl. split; [apply digits2_pos_bounds | lia]. }
  destruct (shr_exact_spec (Z.pos P) E n ltac:(lia))
    as (m' & e' & Hshr & He' & Hm' & Hr').
  rewrite Hshr. clear Hshr.
  set (mrs' := {| shr_m := m'; shr_r := _; shr_s := _ |}).
  set (m1 := round_nearest_even (shr_m mrs') (loc_of_shr_record mrs')).
  assert (Hm'0 : 0 <= m').
  { rewrite Hm'. apply Z.div_pos; [lia | apply pow2_pos; lia]. }
  assert (Hm'53 : m' < 2 ^ 53).
  { rewrite Hm'. apply Z.div_lt_upper_bound; [apply pow2_pos; lia|].
    rewrite <- Z.pow_add_r by lia.
    eapply Z.lt_le_trans; [apply Hd|].
    apply Z.pow_le_mono_r; [lia|].
    unfold n. rewrite fexp_binary64. lia. }
  assert (Hm1 : (m1 = m') \/ (m1 = m' + 1 /\ 0 < n /\
                                Z.odd (Z.pos P / 2 ^ (n - 1)) = true)).
  { destruct (round_nearest_even_bounds mrs') as [H|[H Hr]].
    - left. exact H.
    - right. split; [exact H|].
      simpl shr_r in Hr.
      destruct (Z.ltb_spec 0 n) as [Hn|Hn].
      + split; [exact Hn|]. rewrite <- (Hr' Hn). exact Hr.
      + exfalso. revert Hr. unfold shr. simpl.
        destruct n; try lia; simpl; discriminate. }
  assert (Hm1_0 : 0 <= m1 <= 2 ^ 53) by lia.
  assert (Hround : m1 * 2 ^ (e' - E) <= Z.pos P + 2 ^ (e1 - E) / 2).
  { replace (e' - E) with (Z.max n 0) by lia.
    replace (e1 - E) with (Z.max n 0) by lia.
    pose proof (pow2_pos (Z.max n 0) ltac:(lia)) as Hpow.
    assert (Hhalf : 0 <= 2 ^ Z.max n 0 / 2) by (apply Z.div_pos; lia).
    destruct Hm1 as [H|(H & Hn & Hodd)].
    - rewrite H, Hm'.
      pose proof (Z.mul_div_le (Z.pos P) (2 ^ Z.max n 0) Hpow). lia.
    - rewrite H, Hm'. rewrite Z.max_l by lia.
      assert (Hhalf' : 2 ^ n / 2 = 2 ^ (n - 1)).
      { rewrite (pow2_pred n) by lia.
        rewrite Z.mul_comm. apply Z.div_mul. lia. }
      rewrite Hhalf'.
      apply round_up_half; [lia | exact Hn | exact Hodd]. }
  destruct (shr_exact_spec m1 e' (fexp prec emax (Zdigits2 m1 + e') - e')
              ltac:(lia))
    as (m2 & e2 & Hshr2 & He2 & Hm2 & _).
  rewrite Hshr2. clear Hshr2. simpl shr_m.
  set (n2 := fexp prec emax (Zdigits2 m1 + e') - e') in *.
  assert (Hd1 : Zdigits2 m1 <= 54).
  { apply Zdigits2_le; [|lia].
    split; [lia|]. change (2 ^ 54) with (2 * 2 ^ 53). lia. }
  assert (Hn2 : n2 <= 1).
  { unfold n2. rewrite fexp_binary64.
    assert (Hmin : -1074 <= e').
    { rewrite He'. unfold n. rewrite fexp_binary64. lia. }
    lia. }
  exists m2, e2. split.
  - unfold assembled. destruct m2; reflexivity.
  - assert (Hm2_0 : 0 <= m2).
    { rewrite Hm2. apply Z.div_pos; [lia | apply pow2_pos; lia]. }
    split; [exact Hm2_0|].
    split; [lia|].
    eapply Z.le_trans; [|exact Hround].
    replace (e2 - E) with (Z.max n2 0 + (e' - E)) by lia.
    rewrite Z.pow_add_r by lia.
    rewrite Z.mul_assoc.
    apply Z.mul_le_mono_nonneg_r; [apply Z.lt_le_incl, pow2_pos; lia|].
    rewrite Hm2. rewrite Z.mul_comm.
    apply Z.mul_div_le. apply pow2_pos. lia.
Qed.

Lemma bounded_range (m : positive) (e : Z) :
  bounded prec emax m e = true -> Z.pos m < 2 ^ 53 /\ -1074 <= e.
Proof.
  unfold bounded, canonical_mantissa. intros H.
  apply andb_prop in H. destruct H as [Hc _].
  apply Z.eqb_eq in Hc. rewrite fexp_binary64 in Hc.
  split; [|lia].
  eapply Z.lt_le_trans; [apply digits2_pos_bounds|].
  apply Z.pow_le_mono_r; lia.
Qed.

(** ** A random outcome scaled by an integer constant *)

Section ScaledRandom.
(** The constant [c] and its binary64 representation [mc * 2^ec]. *)
Variable c : Z.
Variable mc : positive.
Variable ec : Z.
Hypothesis scale_repr : number_of_Z c = S754_finite false mc ec.
Hypothesis scale_value : Z.pos mc = c * 2 ^ (- ec).
Hypothesis scale_normal : 2 ^ 52 < Z.pos mc < 2 ^ 53.
Hypothesis scale_exp : -53 <= ec <= -2.

Lemma scale_positive : 0 < c.
Proof.
  pose proof (pow2_pos (- ec) ltac:(lia)) as Hpow.
  assert (0 < c * 2 ^ (- ec)) by lia. nia.
Qed.

(** [Math.floor(Math.random() * c)] is one of [0 .. c-1]. *)
Lemma floor_scaled_random (x : number) :
  random_outcome x = true ->
  exists q, 0 <= q < c /\
    Math_floor (SFmul prec emax x (number_of_Z c)) = number_of_Z q.
Proof.
  pose proof scale_positive as Hc.
  intros Hx. rewrite scale_repr.
  destruct x as [[|] | | | [|] m e]; simpl in Hx; try discriminate Hx.
  - (* +0 *)
    exists 0. split; [lia | reflexivity].
  - apply andb_prop in Hx. destruct Hx as [Hb He].
    apply Z.leb_le in He. change (- prec) with (-53) in He.
    apply bounded_range in Hb. destruct Hb as [Hm Hemin].
    unfold SFmul. simpl xorb.
    destruct (binary_round_aux_exact (m * mc) (e + ec))
      as (m2 & e2 & Hr & Hm2 & He2 & Hval).
    rewrite Hr. clear Hr.
    set (E := e + ec) in *.
    set (d := Zdigits2 (Z.pos (m * mc))) in *.
    assert (Hd : d <= 106).
    { unfold d. apply Zdigits2_le; [|lia].
      split; [lia|]. rewrite Pos2Z.inj_mul.
      change (2 ^ 106) with (2 ^ 53 * 2 ^ 53). nia. }
    rewrite fexp_binary64 in He2, Hval.
    set (e1 := Z.max E (Z.max (d + E - 53) (-1074))) in *.
    assert (He1 : e1 - E <= 53) by (unfold e1, E; lia).
    assert (He1' : E <= e1 <= -2) by (unfold e1, E; lia).
    assert (Herr : 2 ^ (e1 - E) / 2 <= 2 ^ 52).
    { apply Z.div_le_upper_bound; [lia|].
      change (2 * 2 ^ 52) with (2 ^ 53).
      apply Z.pow_le_mono_r; lia. }
    assert (Hpe : 2 ^ 53 <= 2 ^ (- e)) by (apply Z.pow_le_mono_r; lia).
    assert (Hsplit : 2 ^ (- E) = 2 ^ (- e2) * 2 ^ (e2 - E)).
    { rewrite <- Z.pow_add_r by lia. f_equal. lia. }
    assert (Hscale : Z.pos mc * 2 ^ (- e) = c * 2 ^ (- E)).
    { rewrite scale_value. unfold E.
      replace (- (e + ec)) with (- ec + - e) by lia.
      rewrite Z.pow_add_r by lia. ring. }
    pose proof (pow2_pos (e2 - E) ltac:(lia)) as Hp1.
    pose proof (pow2_pos (- e2) ltac:(lia)) as Hp2.
    assert (Hlt : m2 < c * 2 ^ (- e2)).
    { apply (Z.mul_lt_mono_pos_r (2 ^ (e2 - E))); [exact Hp1|].
      rewrite <- Z.mul_assoc, <- Hsplit, <- Hscale.
      rewrite Pos2Z.inj_mul in Hval. nia. }
    destruct m2 as [|p|p]; unfold assembled.
    + exists 0. split; [lia | reflexivity].
    + assert (Hfin : (e2 <=? emax - prec) = true)
        by (apply Z.leb_le; unfold emax, prec; lia).
      assert (Hneg : (0 <=? e2) = false) by (apply Z.leb_gt; lia).
      rewrite Hfin. unfold Math_floor. rewrite Hneg.
      exists (Z.pos p / 2 ^ (- e2)). split; [|reflexivity].
      split.
      * apply Z.div_pos; lia.
      * apply Z.div_lt_upper_bound; [exact Hp2 | lia].
    + lia.
Qed.
End ScaledRandom.

Lemma floor_random_times_50 (x : number) :
  random_outcome x = true ->
  exists q, 0 <= q < 50 /\
    Math_floor (SFmul prec emax x (number_of_Z 50)) = number_of_Z q.
Proof.
  apply (floor_scaled_random 50 7036874417766400 (-47)).
  - reflexivity.
  - reflexivity.
  - split; reflexivity.
  - lia.
Qed.

Lemma floor_random_times_20 (x : number) :
  random_outcome x = true ->
  exists q, 0 <= q < 20 /\
    Math_floor (SFmul prec emax x (number_of_Z 20)) = number_of_Z q.
Proof.
  apply (floor_scaled_random 20 5629499534213120 (-48)).
  - reflexivity.
  - reflexivity.
  - split; reflexivity.
  - lia.
Qed.

(** Adding small integers is exact. *)
Lemma add_10_exact_nat (n : nat) :
  (n < 50)%nat ->
  SFadd prec emax (number_of_Z (Z.of_nat n)) (number_of_Z 10) =
  number_of_Z (Z.of_nat n + 10).
Proof.
  intros Hn.
  do 50 (destruct n as [|n]; [vm_compute; reflexivity|]).
  lia.
Qed.

Lemma add_10_exact (q : Z) :
  0 <= q < 50 ->
  SFadd prec emax (number_of_Z q) (number_of_Z 10) = number_of_Z (q + 10).
Proof.
  intros Hq.
  replace q with (Z.of_nat (Z.to_nat q)) by lia.
  apply add_10_exact_nat. lia.
Qed.

Lemma add_5_exact_nat (n : nat) :
  (n < 20)%nat ->
  SFadd prec emax (number_of_Z (Z.of_nat n)) (number_of_Z 5) =
  number_of_Z (Z.of_nat n + 5).
Proof.
  intros Hn.
  do 20 (destruct n as [|n]; [vm_compute; reflexivity|]).
  lia.
Qed.

Lemma add_5_exact (q : Z) :
  0 <= q < 20 ->
  SFadd prec emax (number_of_Z q) (number_of_Z 5) = number_of_Z (q + 5).
Proof.
  intros Hq.
  replace q with (Z.of_nat (Z.to_nat q)) by lia.
  apply add_5_exact_nat. lia.
Qed.

Lemma activity_points_spec (random : RandomSource) (dates : list string) :
  (forall i, random_outcome (random i) = true) ->
  forall drawn,
    map date (activity_points random drawn dates) = dates /\
    Forall in_chart_range (activity_points random drawn dates).
Proof.
  intros Hrandom.
  induction dates as [|d rest IH]; intros drawn;
    cbn [activity_points map date].
  - split; constructor.
  - destruct (IH (S (S drawn))) as [Hdates Hrange].
    split; [rewrite Hdates; reflexivity|].
    constructor; [|exact Hrange].
    destruct (floor_random_times_50 (random drawn) (Hrandom drawn))
      as (qt & Hqt & Ht).
    destruct (floor_random_times_20 (random (S drawn)) (Hrandom (S drawn)))
      as (qp & Hqp & Hp).
    exists (qt + 10), (qp + 5). cbn [trips_count playlists_count].
    rewrite Ht, Hp, (add_10_exact qt Hqt), (add_5_exact qp Hqp).
    repeat split; lia.
Qed.

(** C8.  Whatever the random source returns (each outcome a number at
    least [+0] and below [1]), [getActivityStats] resolves to exactly six
    entries, labelled '2024-01' to '2024-06' in this order, and in each
    entry the trips count is an integer between 10 and 59 and the
    playlists count an integer between 5 and 24. *)
Theorem getActivityStats_six_points_in_range :
  forall (random : RandomSource) (w : World),
    (forall i, random_outcome (random i) = true) ->
    exists points,
      getActivityStats random w = (Resolved points, w) /\
      List.length points = 6%nat /\
      map date points =
        ["2024-01"; "2024-02"; "2024-03"; "2024-04"; "2024-05"; "2024-06"]
          %string /\
      Forall
        (fun pt =>
           exists t p : Z,
             trips_count pt = number_of_Z t /\ 10 <= t <= 59 /\
             playlists_count pt = number_of_Z p /\ 5 <= p <= 24)
        points.
Proof.
  intros random w Hrandom.
  eexists. split; [reflexivity|].
  destruct (activity_points_spec random
              ["2024-01"; "2024-02"; "2024-03"; "2024-04"; "2024-05"; "2024-06"]
              %string Hrandom 0%nat) as [Hdates Hrange].
  split; [|split; [exact Hdates | exact Hrange]].
  rewrite <- (length_map date), Hdates. reflexivity.
Qed.

Lemma demo_random_outcomes : forall i, random_outcome (demo_random i) = true.
Proof.
  intros i. unfold demo_random.
  destruct (nth_in_or_default (i mod 6) demo_outcomes (S754_zero false))
    as [Hin | Hdef].
  - revert Hin. generalize (nth (i mod 6) demo_outcomes (S754_zero false)).
    intros x Hin. simpl in Hin.
    repeat (destruct Hin as [Hin | Hin]; [subst x; vm_compute; reflexivity|]).
    contradiction.
  - rewrite Hdef. reflexivity.
Qed.

Example activity_sample :
  fst (getActivityStats demo_random (healthy empty_store 0)) =
  Resolved
    [ {| date := "2024-01"; trips_count := number_of_Z 10;
         playlists_count := number_of_Z 24 |};
      {| date := "2024-02"; trips_count := number_of_Z 35;
         playlists_count := number_of_Z 24 |};
      {| date := "2024-03"; trips_count := number_of_Z 16;
         playlists_count := number_of_Z 5 |};
      {| date := "2024-04"; trips_count := number_of_Z 10;
         playlists_count := number_of_Z 24 |};
      {| date := "2024-05"; trips_count := number_of_Z 35;
         playlists_count := number_of_Z 24 |};
      {| date := "2024-06"; trips_count := number_of_Z 16;
         playlists_count := number_of_Z 5 |} ].
Proof. vm_compute. reflexivity. Qed.

Example Math_floor_samples :
  Math_floor (number_of_decimal 4975 2) = number_of_Z 49 /\
  Math_floor (number_of_decimal 5 1) = S754_zero false /\
  Math_floor (number_of_decimal (-5) 1) = number_of_Z (-1) /\
  Math_floor (number_of_Z (-3)) = number_of_Z (-3) /\
  Math_floor (number_of_decimal (-25) 1) = number_of_Z (-3) /\
  Math_floor (S754_infinity false) = S754_infinity false.
Proof. repeat split; vm_compute; reflexivity. Qed.

Example random_outcome_samples :
  random_outcome (number_of_decimal 5 1) = true /\
  random_outcome (S754_zero false) = true /\
  random_outcome (number_of_Z 1) = false /\
  random_outcome (number_of_decimal (-5) 1) = false /\
  random_outcome S754_nan = false.
Proof. repeat split; vm_compute; reflexivity. Qed.

Example largest_outcome_stays_in_range :
  Math_floor (SFmul prec emax (S754_finite false 9007199254740991 (-53))
                (number_of_Z 50)) = number_of_Z 49 /\
  Math_floor (SFmul prec emax (S754_finite false 9007199254740991 (-53))
                (number_of_Z 20)) = number_of_Z 19.
Proof. split; vm_compute; reflexivity. Qed.

Lemma getActivityStats_six_points_in_range_witness :
  exists points,
    getActivityStats demo_random (healthy demo_store 1700000100) =
      (Resolved points, healthy demo_store 1700000100) /\
    List.length points = 6%nat /\
    map date points =
      ["2024-01"; "2024-02"; "2024-03"; "2024-04"; "2024-05"; "2024-06"]
        %string /\
    Forall
      (fun pt =>
         exists t p : Z,
           trips_count pt = number_of_Z t /\ 10 <= t <= 59 /\
           playlists_count pt = number_of_Z p /\ 5 <= p <= 24)
      points.
Proof.
  exact (getActivityStats_six_points_in_range demo_random
           (healthy demo_store 1700000100) demo_random_outcomes).
Defined.

(* ================================================================== *)
(** * Further properties of the storage class and the routes *)
(* ================================================================== *)

(** ** Listings *)

Lemma insert_desc_In R (column : R -> Z) (r y : R) (l : list R) :
  In y (insert_desc column r l) -> y = r \/ In y l.
Proof.
  intros Hy.
  apply (Permutation_in y (insert_desc_perm column r l)) in Hy.
  destruct Hy as [Hy|Hy]; [left; symmetry; exact Hy | right; exact Hy].
Qed.

Lemma insert_desc_descending R (column : R -> Z) (r : R) (l : list R) :
  descending column l -> descending column (insert_desc column r l).
Proof.
  induction l as [|x rest IH]; simpl.
  - intros _. split; [intros y []|exact I].
  - intros [Hx Hrest].
    destruct (Z.ltb_spec (column x) (column r)) as [Hlt|Hge]; simpl.
    + split; [|split; assumption].
      intros y [Hy|Hy]; [subst y; lia|].
      specialize (Hx y Hy). lia.
    + split; [|apply IH; exact Hrest].
      intros y Hy. apply insert_desc_In in Hy.
      destruct Hy as [Hy|Hy]; [subst y; exact Hge | apply Hx; exact Hy].
Qed.

Lemma orderBy_desc_descending R (column : R -> Z) (l : list R) :
  descending column (orderBy_desc column l).
Proof.
  induction l as [|r rest IH]; simpl.
  - exact I.
  - apply insert_desc_descending. exact IH.
Qed.

(** X1.  On a reachable store each listing of the storage class resolves
    to all rows of its table, each as often as the table holds it, and
    leaves the store alone; users come latest join first, places,
    playlists, reviews and photos latest creation first, trips as the
    table holds them. *)
Theorem listings_complete_and_latest_first :
  forall (s : Store) (now : Z),
    (exists l, getUsers (healthy s now) = (Resolved l, healthy s now) /\
               Permutation l (rows (tbl_users s)) /\
               descending user_joinedAt l) /\
    (exists l, getPlaces (healthy s now) = (Resolved l, healthy s now) /\
               Permutation l (rows (tbl_places s)) /\
               descending place_createdAt l) /\
    (exists l, getPlaylists (healthy s now) = (Resolved l, healthy s now) /\
               Permutation l (rows (tbl_playlists s)) /\
               descending playlist_createdAt l) /\
    (exists l, getReviews (healthy s now) = (Resolved l, healthy s now) /\
               Permutation l (rows (tbl_reviews s)) /\
               descending review_createdAt l) /\
    (exists l, getPhotos (healthy s now) = (Resolved l, healthy s now) /\
               Permutation l (rows (tbl_photos s)) /\
               descending photo_createdAt l) /\
    getTrips (healthy s now) = (Resolved (rows (tbl_trips s)), healthy s now).
Proof.
  intros s now. repeat apply conj.
  - eexists. split; [apply getUsers_healthy|].
    split; [apply orderBy_desc_perm | apply orderBy_desc_descending].
  - eexists. split; [apply getPlaces_healthy|].
    split; [apply orderBy_desc_perm | apply orderBy_desc_descending].
  - eexists. split; [apply getPlaylists_healthy|].
    split; [apply orderBy_desc_perm | apply orderBy_desc_descending].
  - eexists. split; [apply getReviews_healthy|].
    split; [apply orderBy_desc_perm | apply orderBy_desc_descending].
  - eexists. split; [apply getPhotos_healthy|].
    split; [apply orderBy_desc_perm | apply orderBy_desc_descending].
  - apply getTrips_healthy.
Qed.

(** ** Reading never writes *)

Lemma read_only_query A (q : Store -> A) : read_only (query q).
Proof.
  intros w. destruct (query_cases q w) as [H|H]; rewrite H; simpl.
  - split; [reflexivity|]. intros e He. inversion He. reflexivity.
  - split; [reflexivity|]. intros e He. discriminate He.
Qed.

Lemma read_only_resolve A (a : A) : read_only (resolve a).
Proof.
  intros w. split; [reflexivity|]. intros e He. discriminate He.
Qed.

Lemma read_only_await A B (p : Promise A) (k : A -> Promise B) :
  read_only p -> (forall a, read_only (k a)) -> read_only (await p k).
Proof.
  intros Hp Hk w. unfold await.
  destruct (Hp w) as [Hs He]. destruct (p w) as [[a|e] w1]; simpl in *.
  - destruct (Hk a w1) as [Hs1 He1]. split; [congruence | exact He1].
  - split; [exact Hs|]. intros e' H'. inversion H'; subst. apply He. reflexivity.
Qed.

Ltac read_only_step :=
  first
    [ apply read_only_query
    | apply read_only_resolve
    | apply read_only_await; [|intros ?]
    | match goal with
      | |- read_only (match ?a with _ => _ end) => destruct a
      end ].

(** X2.  No read of the storage class and no GET route ever writes: in
    every world, whatever outages occur, the listings, the reads by id,
    the dashboard aggregate and the routes on top of them leave the
    store as they found it, and reject only with the failure of the
    data store. *)
Theorem reads_never_write :
  read_only getUsers /\ (forall id, read_only (getUser id)) /\
  read_only getPlaces /\ (forall id, read_only (getPlace id)) /\
  read_only getPlaylists /\ read_only getTrips /\
  read_only getReviews /\ read_only getPhotos /\
  read_only getDashboardStats /\
  read_only dashboard_stats /\ read_only places_list /\
  (forall id, read_only (places_get id)) /\
  read_only playlists_list /\ read_only users_list /\
  read_only moderation_reviews_list /\ read_only moderation_photos_list.
Proof.
  repeat apply conj; try intros id;
    unfold dashboard_stats, getDashboardStats, places_get, places_list,
      playlists_list, users_list, moderation_reviews_list,
      moderation_photos_list, getUsers, getUser, getPlaces, getPlace,
      getPlaylists, getTrips, getReviews, getPhotos;
    repeat read_only_step.
Qed.

(** ** The dashboard aggregate under outages *)

(** X3.  [getDashboardStats] makes exactly five round trips and nothing
    else: when none of the next five meets an outage it resolves to the
    scan counts of the store and has used up five flags; when one of
    them does, it rejects with the failure of the data store.  Outages
    after the fifth round trip do not matter. *)
Theorem getDashboardStats_five_round_trips :
  forall w : World,
    (existsb (fun down => down) (firstn 5 (outages w)) = false ->
       getDashboardStats w =
         (Resolved
            {| totalTrips := List.length (rows (tbl_trips (store w)));
               totalPlaylists := List.length (rows (tbl_playlists (store w)));
               totalPlaces := List.length (rows (tbl_places (store w)));
               activeUsers :=
                 List.length
                   (filter (fun u => user_status u =? "active")%string
                           (rows (tbl_users (store w))));
               pendingReviews :=
                 List.length
                   (filter (fun r => review_status r =? "pending")%string
                           (rows (tbl_reviews (store w)))) |},
          {| store := store w; clock := clock w;
             outages := skipn 5 (outages w) |}))
    /\
    (existsb (fun down => down) (firstn 5 (outages w)) = true ->
       fst (getDashboardStats w) = Rejected StoreFailure).
Proof.
  intros [s c o].
  unfold getDashboardStats, getTrips, getPlaylists, getPlaces, getUsers,
    getReviews, query, await, round_trip, resolve, select_from.
  destruct o as [|[|] [|[|] [|[|] [|[|] [|[|] rest]]]]];
    simpl; split; intros H; try discriminate H; try reflexivity;
    rewrite !orderBy_desc_length, !filter_orderBy_desc_length; reflexivity.
Qed.

Lemma getDashboardStats_five_round_trips_witness :
  fst (getDashboardStats
         {| store := seeded_store; clock := 1700000100;
            outages := [false; false; false; false; false; true] |}) =
    Resolved {| totalTrips := 3; totalPlaylists := 2; totalPlaces := 3;
                activeUsers := 3; pendingReviews := 1 |} /\
  fst (getDashboardStats
         {| store := seeded_store; clock := 1700000100;
            outages := [false; false; false; true] |}) =
    Rejected StoreFailure.
Proof.
  split.
  - rewrite (proj1 (getDashboardStats_five_round_trips
                      {| store := seeded_store; clock := 1700000100;
                         outages := [false; false; false; false; false; true] |})
               eq_refl).
    reflexivity.
  - apply (proj2 (getDashboardStats_five_round_trips
                    {| store := seeded_store; clock := 1700000100;
                       outages := [false; false; false; true] |})).
    reflexivity.
Defined.

(** ** Creating rows *)

Lemma in_sequence_fresh R (key : R -> Z) (tb : Table R) :
  in_sequence key tb -> ~ In (next_id tb) (map key (rows tb)).
Proof.
  intros Hseq Hin. apply in_map_iff in Hin. destruct Hin as (x & Hx & Hin).
  unfold in_sequence in Hseq. rewrite Forall_forall in Hseq.
  specialize (Hseq x Hin). lia.
Qed.

(** X4.  On a reachable store whose identifiers lie below their
    sequences, each create of the storage class resolves to the stored
    row: the input with the next identifier of its table, which no row
    of the table carries yet, and the clock reading.  The row is
    appended to its table, the sequence moves on by one, and the other
    five tables are untouched. *)
Theorem create_appends_a_fresh_row :
  forall (s : Store) (now : Z),
    well_sequenced s ->
    (forall v : InsertUser,
       exists r s',
         createUser v (healthy s now) = (Resolved (Some r), healthy s' now) /\
         r = stored_user (next_id (tbl_users s)) now v /\
         ~ In (user_id r) (map user_id (rows (tbl_users s))) /\
         rows (tbl_users s') = (rows (tbl_users s) ++ [r])%list /\
         next_id (tbl_users s') = next_id (tbl_users s) + 1 /\
         tbl_places s' = tbl_places s /\
         tbl_playlists s' = tbl_playlists s /\
         tbl_trips s' = tbl_trips s /\
         tbl_reviews s' = tbl_reviews s /\
         tbl_photos s' = tbl_photos s) /\
    (forall v : InsertPlace,
       exists r s',
         createPlace v (healthy s now) = (Resolved (Some r), healthy s' now) /\
         r = stored_place (next_id (tbl_places s)) now v /\
         ~ In (place_id r) (map place_id (rows (tbl_places s))) /\
         rows (tbl_places s') = (rows (tbl_places s) ++ [r])%list /\
         next_id (tbl_places s') = next_id (tbl_places s) + 1 /\
         tbl_users s' = tbl_users s /\
         tbl_playlists s' = tbl_playlists s /\
         tbl_trips s' = tbl_trips s /\
         tbl_reviews s' = tbl_reviews s /\
         tbl_photos s' = tbl_photos s) /\
    (forall v : InsertPlaylist,
       exists r s',
         createPlaylist v (healthy s now) = (Resolved (Some r), healthy s' now) /\
         r = stored_playlist (next_id (tbl_playlists s)) now v /\
         ~ In (playlist_id r) (map playlist_id (rows (tbl_playlists s))) /\
         rows (tbl_playlists s') = (rows (tbl_playlists s) ++ [r])%list /\
         next_id (tbl_playlists s') = next_id (tbl_playlists s) + 1 /\
         tbl_users s' = tbl_users s /\
         tbl_places s' = tbl_places s /\
         tbl_trips s' = tbl_trips s /\
         tbl_reviews s' = tbl_reviews s /\
         tbl_photos s' = tbl_photos s) /\
    (forall v : InsertTrip,
       exists r s',
         createTrip v (healthy s now) = (Resolved (Some r), healthy s' now) /\
         r = stored_trip (next_id (tbl_trips s)) now v /\
         ~ In (trip_id r) (map trip_id (rows (tbl_trips s))) /\
         rows (tbl_trips s') = (rows (tbl_trips s) ++ [r])%list /\
         next_id (tbl_trips s') = next_id (tbl_trips s) + 1 /\
         tbl_users s' = tbl_users s /\
         tbl_places s' = tbl_places s /\
         tbl_playlists s' = tbl_playlists s /\
         tbl_reviews s' = tbl_reviews s /\
         tbl_photos s' = tbl_photos s) /\
    (forall v : InsertReview,
       exists r s',
         createReview v (healthy s now) = (Resolved (Some r), healthy s' now) /\
         r = stored_review (next_id (tbl_reviews s)) now v /\
         ~ In (review_id r) (map review_id (rows (tbl_reviews s))) /\
         rows (tbl_reviews s') = (rows (tbl_reviews s) ++ [r])%list /\
         next_id (tbl_reviews s') = next_id (tbl_reviews s) + 1 /\
         tbl_users s' = tbl_users s /\
         tbl_places s' = tbl_places s /\
         tbl_playlists s' = tbl_playlists s /\
         tbl_trips s' = tbl_trips s /\
         tbl_photos s' = tbl_photos s) /\
    (forall v : InsertPhoto,
       exists r s',
         createPhoto v (healthy s now) = (Resolved (Some r), healthy s' now) /\
         r = stored_photo (next_id (tbl_photos s)) now v /\
         ~ In (photo_id r) (map photo_id (rows (tbl_photos s))) /\
         rows (tbl_photos s') = (rows (tbl_photos s) ++ [r])%list /\
         next_id (tbl_photos s') = next_id (tbl_photos s) + 1 /\
         tbl_users s' = tbl_users s /\
         tbl_places s' = tbl_places s /\
         tbl_playlists s' = tbl_playlists s /\
         tbl_trips s' = tbl_trips s /\
         tbl_reviews s' = tbl_reviews s).
Proof.
  intros s now (Huser & Hplace & Hplaylist & Htrip & Hreview & Hphoto).
  repeat apply conj.
  - intros v. do 2 eexists.
    split; [apply createUser_healthy|].
    simpl. repeat split.
    apply (in_sequence_fresh _ user_id). exact Huser.
  - intros v. do 2 eexists.
    split; [apply createPlace_healthy|].
    simpl. repeat split.
    apply (in_sequence_fresh _ place_id). exact Hplace.
  - intros v. do 2 eexists.
    split; [apply createPlaylist_healthy|].
    simpl. repeat split.
    apply (in_sequence_fresh _ playlist_id). exact Hplaylist.
  - intros v. do 2 eexists.
    split; [apply createTrip_healthy|].
    simpl. repeat split.
    apply (in_sequence_fresh _ trip_id). exact Htrip.
  - intros v. do 2 eexists.
    split; [apply createReview_healthy|].
    simpl. repeat split.
    apply (in_sequence_fresh _ review_id). exact Hreview.
  - intros v. do 2 eexists.
    split; [apply createPhoto_healthy|].
    simpl. repeat split.
    apply (in_sequence_fresh _ photo_id). exact Hphoto.
Qed.

Lemma create_appends_a_fresh_row_witness :
  (exists r s',
      createTrip {| new_trip_userId := 2; new_trip_destination := "Kandy";
                    new_trip_status := "planned" |}
                 (healthy demo_store 1700000100) =
        (Resolved (Some r), healthy s' 1700000100) /\
      trip_id r = 1 /\ rows (tbl_trips s') = [r] /\
      tbl_users s' = tbl_users demo_store) /\
  (exists r s',
      createReview {| new_review_userId := 2; new_review_userName := "B";
                      new_review_placeId := 1; new_review_placeName := "Harbour";
                      new_review_content := "Windy"; new_review_rating := "4";
                      new_review_status := "pending" |}
                   (healthy demo_store 1700000100) =
        (Resolved (Some r), healthy s' 1700000100) /\
      review_id r = 3 /\
      ~ In (review_id r) (map review_id (rows (tbl_reviews demo_store)))).
Proof.
  pose proof (create_appends_a_fresh_row demo_store 1700000100
                demo_store_well_sequenced)
    as (_ & _ & _ & Htrip & Hreview & _).
  split.
  - destruct (Htrip {| new_trip_userId := 2; new_trip_destination := "Kandy";
                       new_trip_status := "planned" |})
      as (r & s' & Hrun & Hr & _ & Hrows & _ & Husers & _).
    exists r, s'. repeat split; try assumption.
    rewrite Hr. reflexivity.
  - destruct (Hreview {| new_review_userId := 2; new_review_userName := "B";
                         new_review_placeId := 1;
                         new_review_placeName := "Harbour";
                         new_review_content := "Windy"; new_review_rating := "4";
                         new_review_status := "pending" |})
      as (r & s' & Hrun & Hr & Hfresh & _).
    exists r, s'. repeat split; try assumption.
    rewrite Hr. reflexivity.
Defined.

(** X5.  For the entities that have no read by id (playlists, trips,
    reviews, photos): on a reachable store, the row a create returns is
    in the listing read right after it, together with every row that
    was there before, and the listing is longer by exactly one. *)
Theorem create_then_list :
  forall (s : Store) (now : Z),
    (forall v : InsertPlaylist,
       exists r s' l,
         createPlaylist v (healthy s now) = (Resolved (Some r), healthy s' now) /\
         getPlaylists (healthy s' now) = (Resolved l, healthy s' now) /\
         In r l /\
         (forall x, In x (rows (tbl_playlists s)) -> In x l) /\
         List.length l = S (List.length (rows (tbl_playlists s)))) /\
    (forall v : InsertTrip,
       exists r s' l,
         createTrip v (healthy s now) = (Resolved (Some r), healthy s' now) /\
         getTrips (healthy s' now) = (Resolved l, healthy s' now) /\
         In r l /\
         (forall x, In x (rows (tbl_trips s)) -> In x l) /\
         List.length l = S (List.length (rows (tbl_trips s)))) /\
    (forall v : InsertReview,
       exists r s' l,
         createReview v (healthy s now) = (Resolved (Some r), healthy s' now) /\
         getReviews (healthy s' now) = (Resolved l, healthy s' now) /\
         In r l /\
         (forall x, In x (rows (tbl_reviews s)) -> In x l) /\
         List.length l = S (List.length (rows (tbl_reviews s)))) /\
    (forall v : InsertPhoto,
       exists r s' l,
         createPhoto v (healthy s now) = (Resolved (Some r), healthy s' now) /\
         getPhotos (healthy s' now) = (Resolved l, healthy s' now) /\
         In r l /\
         (forall x, In x (rows (tbl_photos s)) -> In x l) /\
         List.length l = S (List.length (rows (tbl_photos s)))).
Proof.
  intros s now. repeat apply conj.
  - intros v. do 3 eexists.
    split; [apply createPlaylist_healthy|].
    split; [apply getPlaylists_healthy|].
    simpl. repeat split.
    + apply orderBy_desc_In, in_or_app. right. left. reflexivity.
    + intros x Hx. apply orderBy_desc_In, in_or_app. left. exact Hx.
    + rewrite orderBy_desc_length, length_app. simpl. lia.
  - intros v. do 3 eexists.
    split; [apply createTrip_healthy|].
    split; [apply getTrips_healthy|].
    simpl. repeat split.
    + apply in_or_app. right. left. reflexivity.
    + intros x Hx. apply in_or_app. left. exact Hx.
    + rewrite length_app. simpl. lia.
  - intros v. do 3 eexists.
    split; [apply createReview_healthy|].
    split; [apply getReviews_healthy|].
    simpl. repeat split.
    + apply orderBy_desc_In, in_or_app. right. left. reflexivity.
    + intros x Hx. apply orderBy_desc_In, in_or_app. left. exact Hx.
    + rewrite orderBy_desc_length, length_app. simpl. lia.
  - intros v. do 3 eexists.
    split; [apply createPhoto_healthy|].
    split; [apply getPhotos_healthy|].
    simpl. repeat split.
    + apply orderBy_desc_In, in_or_app. right. left. reflexivity.
    + intros x Hx. apply orderBy_desc_In, in_or_app. left. exact Hx.
    + rewrite orderBy_desc_length, length_app. simpl. lia.
Qed.

(** ** Updating a status, then reading *)

Section WhereFacts.
Variable R : Type.
Variable key : R -> Z.
Variable f : R -> R.
Hypothesis f_keeps_key : forall r, key (f r) = key r.

Lemma find_map_where (id : Z) (l : list R) :
  find (fun r => key r =? id)
       (map (fun r => if key r =? id then f r else r) l) =
  option_map f (find (fun r => key r =? id) l).
Proof.
  induction l as [|x rest IH]; simpl.
  - reflexivity.
  - destruct (key x =? id) eqn:Hx.
    + rewrite f_keeps_key, Hx. reflexivity.
    + rewrite Hx. exact IH.
Qed.

Lemma filter_map_where_other (id id' : Z) (l : list R) :
  id' <> id ->
  filter (fun r => key r =? id')
         (map (fun r => if key r =? id then f r else r) l) =
  filter (fun r => key r =? id') l.
Proof.
  intros Hneq. induction l as [|x rest IH]; simpl.
  - reflexivity.
  - destruct (key x =? id) eqn:Hx.
    + apply Z.eqb_eq in Hx.
      rewrite f_keeps_key.
      replace (key x =? id') with false by (symmetry; apply Z.eqb_neq; lia).
      exact IH.
    + destruct (key x =? id'); [f_equal|]; exact IH.
Qed.

Lemma map_where_twice (id : Z) (g : R -> R) (l : list R) :
  (forall r, g (f r) = g r) ->
  map (fun r => if key r =? id then g r else r)
      (map (fun r => if key r =? id then f r else r) l) =
  map (fun r => if key r =? id then g r else r) l.
Proof.
  intros Hg. rewrite map_map. apply map_ext. intros r.
  destruct (key r =? id) eqn:Hr.
  - rewrite f_keeps_key, Hr. apply Hg.
  - rewrite Hr. reflexivity.
Qed.

Lemma insert_desc_map (column : R -> Z) (r : R) (l : list R) :
  (forall x, column (f x) = column x) ->
  insert_desc column (f r) (map f l) = map f (insert_desc column r l).
Proof.
  intros Hcol. induction l as [|x rest IH]; simpl.
  - reflexivity.
  - rewrite !Hcol. destruct (column x <? column r); simpl.
    + reflexivity.
    + rewrite IH. reflexivity.
Qed.

Lemma orderBy_desc_map (column : R -> Z) (l : list R) :
  (forall x, column (f x) = column x) ->
  orderBy_desc column (map f l) = map f (orderBy_desc column l).
Proof.
  intros Hcol. induction l as [|r rest IH]; simpl.
  - reflexivity.
  - rewrite IH. apply insert_desc_map. exact Hcol.
Qed.
End WhereFacts.

Lemma filter_filter_other R (key : R -> Z) (id id' : Z) (l : list R) :
  id' <> id ->
  filter (fun r => key r =? id') (filter (fun r => negb (key r =? id)) l) =
  filter (fun r => key r =? id') l.
Proof.
  intros Hneq. induction l as [|x rest IH]; simpl.
  - reflexivity.
  - destruct (key x =? id) eqn:Hx; simpl.
    + apply Z.eqb_eq in Hx.
      replace (key x =? id') with false by (symmetry; apply Z.eqb_neq; lia).
      exact IH.
    + destruct (key x =? id'); [f_equal|]; exact IH.
Qed.

Lemma updateUserStatus_healthy id status s now :
  updateUserStatus id status (healthy s now) =
  (Resolved (option_map (set_user_status status)
               (find (fun r => user_id r =? id) (rows (tbl_users s)))),
   healthy (write users (updated_table users (set_user_status status) id s) s)
           now).
Proof. unfold updateUserStatus. apply update_returning_first. Qed.

(** X6.  On a reachable store, after [updateUserStatus] a read of the
    same id resolves to the very row the update returned, which carries
    the new status; a read of any other id resolves as it did before
    the update. *)
Theorem update_status_then_get :
  forall (s : Store) (now : Z) (id : Z) (status : string),
    exists s',
      snd (updateUserStatus id status (healthy s now)) = healthy s' now /\
      (forall u,
         find (fun r => user_id r =? id) (rows (tbl_users s)) = Some u ->
         exists u',
           fst (updateUserStatus id status (healthy s now)) =
             Resolved (Some u') /\
           getUser id (healthy s' now) = (Resolved (Some u'), healthy s' now) /\
           user_status u' = status /\ user_name u' = user_name u) /\
      (forall id',
         id' <> id ->
         fst (getUser id' (healthy s' now)) = fst (getUser id' (healthy s now))).
Proof.
  intros s now id status. eexists.
  split; [rewrite updateUserStatus_healthy; reflexivity|].
  split.
  - intros u Hu. exists (set_user_status status u).
    rewrite updateUserStatus_healthy, Hu.
    split; [reflexivity|]. split; [|split; reflexivity].
    rewrite getUser_healthy. simpl. unfold eq_id; simpl.
    rewrite first_filter.
    rewrite (find_map_where User user_id (set_user_status status)
               (fun r => eq_refl) id).
    rewrite Hu. reflexivity.
  - intros id' Hneq. rewrite !getUser_healthy. simpl. unfold eq_id; simpl.
    rewrite (filter_map_where_other User user_id (set_user_status status)
               (fun r => eq_refl) id id' _ Hneq).
    reflexivity.
Qed.

Lemma update_status_then_get_witness :
  exists u' s',
    snd (updateUserStatus 2 "active" (healthy demo_store 1700000100)) =
      healthy s' 1700000100 /\
    getUser 2 (healthy s' 1700000100) =
      (Resolved (Some u'), healthy s' 1700000100) /\
    user_status u' = "active" /\ user_name u' = "B" /\
    fst (getUser 1 (healthy s' 1700000100)) =
      fst (getUser 1 (healthy demo_store 1700000100)).
Proof.
  destruct (update_status_then_get demo_store 1700000100 2 "active")
    as (s' & Hrun & Hsame & Hother).
  destruct (Hsame _ eq_refl) as (u' & _ & Hget & Hst & Hname).
  exists u', s'. repeat split; try assumption.
  apply Hother. discriminate.
Defined.

(** X7.  The last status wins: on a reachable store, updating the status
    of an id twice leaves the same store and returns the same row as the
    second update alone, for users, playlists, reviews and photos; so
    repeating an update changes nothing. *)
Theorem update_status_last_wins :
  forall (s : Store) (now : Z) (id : Z) (first_status status : string),
    updateUserStatus id status
      (snd (updateUserStatus id first_status (healthy s now))) =
      updateUserStatus id status (healthy s now) /\
    updatePlaylistStatus id status
      (snd (updatePlaylistStatus id first_status (healthy s now))) =
      updatePlaylistStatus id status (healthy s now) /\
    updateReviewStatus id status
      (snd (updateReviewStatus id first_status (healthy s now))) =
      updateReviewStatus id status (healthy s now) /\
    updatePhotoStatus id status
      (snd (updatePhotoStatus id first_status (healthy s now))) =
      updatePhotoStatus id status (healthy s now).
Proof.
  intros s now id first_status status. repeat apply conj.
  - unfold updateUserStatus. rewrite !update_returning_first. simpl snd.
    rewrite update_returning_first.
    unfold updated_table, eq_id; simpl.
    rewrite (find_map_where User user_id (set_user_status first_status)
               (fun r => eq_refl) id).
    rewrite (map_where_twice User user_id (set_user_status first_status)
               (fun r => eq_refl) id (set_user_status status))
      by (intros r; reflexivity).
    destruct (find (fun r => user_id r =? id) (rows (tbl_users s)));
      reflexivity.
  - unfold updatePlaylistStatus. rewrite !update_returning_first. simpl snd.
    rewrite update_returning_first.
    unfold updated_table, eq_id; simpl.
    rewrite (find_map_where Playlist playlist_id
               (set_playlist_status first_status) (fun r => eq_refl) id).
    rewrite (map_where_twice Playlist playlist_id
               (set_playlist_status first_status) (fun r => eq_refl) id
               (set_playlist_status status))
      by (intros r; reflexivity).
    destruct (find (fun r => playlist_id r =? id) (rows (tbl_playlists s)));
      reflexivity.
  - unfold updateReviewStatus. rewrite !update_returning_first. simpl snd.
    rewrite update_returning_first.
    unfold updated_table, eq_id; simpl.
    rewrite (find_map_where Review review_id (set_review_status first_status)
               (fun r => eq_refl) id).
    rewrite (map_where_twice Review review_id (set_review_status first_status)
               (fun r => eq_refl) id (set_review_status status))
      by (intros r; reflexivity).
    destruct (find (fun r => review_id r =? id) (rows (tbl_reviews s)));
      reflexivity.
  - unfold updatePhotoStatus. rewrite !update_returning_first. simpl snd.
    rewrite update_returning_first.
    unfold updated_table, eq_id; simpl.
    rewrite (find_map_where Photo photo_id (set_photo_status first_status)
               (fun r => eq_refl) id).
    rewrite (map_where_twice Photo photo_id (set_photo_status first_status)
               (fun r => eq_refl) id (set_photo_status status))
      by (intros r; reflexivity).
    destruct (find (fun r => photo_id r =? id) (rows (tbl_photos s)));
      reflexivity.
Qed.

(** ** Deleting, then reading *)

(** X8.  On a reachable store, the delete routes of users and places
    answer 204 with an empty body for every id; afterwards a read of
    that id finds nothing (the places route answers 404), and a read of
    any other id resolves as it did before the delete. *)
Theorem delete_then_get :
  forall (s : Store) (now : Z) (id : Z),
    (exists s',
        users_delete id (healthy s now) =
          (Resolved {| status_code := 204; payload := NoContent |},
           healthy s' now) /\
        getUser id (healthy s' now) = (Resolved None, healthy s' now) /\
        (forall id',
           id' <> id ->
           fst (getUser id' (healthy s' now)) =
           fst (getUser id' (healthy s now))))
    /\
    (exists s',
        places_delete id (healthy s now) =
          (Resolved {| status_code := 204; payload := NoContent |},
           healthy s' now) /\
        places_get id (healthy s' now) =
          (Resolved {| status_code := 404; payload := Message "Place not found" |},
           healthy s' now) /\
        (forall id',
           id' <> id ->
           fst (places_get id' (healthy s' now)) =
           fst (places_get id' (healthy s now)))).
Proof.
  intros s now id. split.
  - exists (delete_where users (eq_id users id) s).
    split.
    { unfold users_delete, deleteUser.
      erewrite await_resolved by apply execute_healthy. reflexivity. }
    split.
    + rewrite getUser_healthy. simpl. unfold eq_id; simpl.
      rewrite filter_none; [reflexivity|].
      intros x Hx. apply filter_In in Hx. destruct Hx as [_ Hx].
      apply negb_true_iff in Hx. exact Hx.
    + intros id' Hneq. rewrite !getUser_healthy. simpl. unfold eq_id; simpl.
      rewrite (filter_filter_other User user_id id id' _ Hneq). reflexivity.
  - exists (delete_where places (eq_id places id) s).
    split.
    { unfold places_delete, deletePlace.
      erewrite await_resolved by apply execute_healthy. reflexivity. }
    split.
    + unfold places_get.
      erewrite await_resolved by apply getPlace_healthy.
      simpl. unfold eq_id; simpl.
      rewrite filter_none; [reflexivity|].
      intros x Hx. apply filter_In in Hx. destruct Hx as [_ Hx].
      apply negb_true_iff in Hx. exact Hx.
    + intros id' Hneq. unfold places_get.
      do 2 (erewrite await_resolved by apply getPlace_healthy).
      simpl. unfold eq_id; simpl.
      rewrite (filter_filter_other Place place_id id id' _ Hneq).
      destruct (first (filter (fun r => place_id r =? id') (rows (tbl_places s))));
        reflexivity.
Qed.

Example delete_then_get_sample :
  let w := snd (places_delete 1 (healthy demo_store 1700000100)) in
  fst (places_get 1 (healthy demo_store 1700000100)) <>
    Resolved {| status_code := 404; payload := Message "Place not found" |} /\
  fst (places_get 1 w) =
    Resolved {| status_code := 404; payload := Message "Place not found" |}.
Proof. split; [discriminate | reflexivity]. Qed.

(** ** The moderation queue after an action *)

Lemma filter_pending_after_action R (key : R -> Z) (status_of : R -> string)
    (f : R -> R) (id : Z) (l : list R) :
  (forall r, (status_of (f r) =? "pending")%string = false) ->
  filter (fun r => (status_of r =? "pending")%string)
         (map (fun r => if key r =? id then f r else r) l) =
  filter (fun r => negb (key r =? id))
         (filter (fun r => (status_of r =? "pending")%string) l).
Proof.
  intros Hf. induction l as [|x rest IH]; simpl.
  - reflexivity.
  - destruct (key x =? id) eqn:Hx.
    + rewrite Hf.
      destruct (status_of x =? "pending")%string; simpl;
        [rewrite Hx; simpl|]; exact IH.
    + destruct (status_of x =? "pending")%string; simpl;
        [rewrite Hx; simpl; f_equal|]; exact IH.
Qed.

(** X9.  On a reachable store, a moderation action that sets a status
    other than "pending" takes exactly the items with that id out of the
    moderation queue: the queue read after the action is the queue read
    before it without those items, in the same order.  This holds for
    reviews and for photos. *)
Theorem moderation_action_clears_the_item :
  forall (s : Store) (now : Z) (id : Z) (status : string),
    status <> "pending"%string ->
    (exists s' before after,
        moderation_reviews_list (healthy s now) =
          (Resolved (json before), healthy s now) /\
        snd (moderation_reviews_action id status (healthy s now)) =
          healthy s' now /\
        moderation_reviews_list (healthy s' now) =
          (Resolved (json after), healthy s' now) /\
        after = filter (fun r => negb (review_id r =? id)) before)
    /\
    (exists s' before after,
        moderation_photos_list (healthy s now) =
          (Resolved (json before), healthy s now) /\
        snd (moderation_photos_action id status (healthy s now)) =
          healthy s' now /\
        moderation_photos_list (healthy s' now) =
          (Resolved (json after), healthy s' now) /\
        after = filter (fun p => negb (photo_id p =? id)) before).
Proof.
  intros s now id status Hstatus.
  assert (Hnot : (status =? "pending")%string = false)
    by (apply String.eqb_neq; exact Hstatus).
  split.
  - do 3 eexists.
    split.
    { unfold moderation_reviews_list.
      erewrite await_resolved by apply getReviews_healthy. reflexivity. }
    split.
    { unfold moderation_reviews_action, updateReviewStatus.
      erewrite await_resolved by apply update_returning_first. reflexivity. }
    split.
    { unfold moderation_reviews_list.
      erewrite await_resolved by apply getReviews_healthy. reflexivity. }
    unfold updated_table, eq_id; simpl.
    rewrite (orderBy_desc_map Review
               (fun r => if review_id r =? id
                         then set_review_status status r else r)
               review_createdAt)
      by (intros x; destruct (review_id x =? id); reflexivity).
    apply (filter_pending_after_action Review review_id review_status).
    intros r. exact Hnot.
  - do 3 eexists.
    split.
    { unfold moderation_photos_list.
      erewrite await_resolved by apply getPhotos_healthy. reflexivity. }
    split.
    { unfold moderation_photos_action, updatePhotoStatus.
      erewrite await_resolved by apply update_returning_first. reflexivity. }
    split.
    { unfold moderation_photos_list.
      erewrite await_resolved by apply getPhotos_healthy. reflexivity. }
    unfold updated_table, eq_id; simpl.
    rewrite (orderBy_desc_map Photo
               (fun p => if photo_id p =? id
                         then set_photo_status status p else p)
               photo_createdAt)
      by (intros x; destruct (photo_id x =? id); reflexivity).
    apply (filter_pending_after_action Photo photo_id photo_status).
    intros p. exact Hnot.
Qed.

Lemma moderation_action_clears_the_item_witness :
  (exists s' before after,
      moderation_reviews_list (healthy seeded_store 1700000100) =
        (Resolved (json before), healthy seeded_store 1700000100) /\
      snd (moderation_reviews_action 1 "approved"
             (healthy seeded_store 1700000100)) = healthy s' 1700000100 /\
      moderation_reviews_list (healthy s' 1700000100) =
        (Resolved (json after), healthy s' 1700000100) /\
      map review_id before = [1] /\ after = []) /\
  (exists s' before after,
      moderation_photos_list (healthy seeded_store 1700000100) =
        (Resolved (json before), healthy seeded_store 1700000100) /\
      snd (moderation_photos_action 1 "rejected"
             (healthy seeded_store 1700000100)) = healthy s' 1700000100 /\
      moderation_photos_list (healthy s' 1700000100) =
        (Resolved (json after), healthy s' 1700000100) /\
      map photo_id before = [1] /\ after = []).
Proof.
  split.
  - destruct (proj1 (moderation_action_clears_the_item seeded_store 1700000100
                       1 "approved" ltac:(discriminate)))
      as (s' & before & after & Hb & Hrun & Ha & Heq).
    exists s', before, after.
    assert (Hbefore : map review_id before = [1]).
    { unfold moderation_reviews_list in Hb.
      erewrite await_resolved in Hb by apply getReviews_healthy.
      inversion Hb. reflexivity. }
    repeat split; try assumption.
    rewrite Heq. destruct before as [|r [|r' rest]]; try discriminate Hbefore.
    simpl in *. inversion Hbefore as [Hr]. rewrite Hr. reflexivity.
  - destruct (proj2 (moderation_action_clears_the_item seeded_store 1700000100
                       1 "rejected" ltac:(discriminate)))
      as (s' & before & after & Hb & Hrun & Ha & Heq).
    exists s', before, after.
    assert (Hbefore : map photo_id before = [1]).
    { unfold moderation_photos_list in Hb.
      erewrite await_resolved in Hb by apply getPhotos_healthy.
      inversion Hb. reflexivity. }
    repeat split; try assumption.
    rewrite Heq. destruct before as [|r [|r' rest]]; try discriminate Hbefore.
    simpl in *. inversion Hbefore as [Hr]. rewrite Hr. reflexivity.
Defined.

(** ** The create routes *)

(** X10.  When the schema accepts the (normalized) body and the store is
    reachable, the places create route answers 201 with the stored row:
    the validated input under the next identifier of the table; and the
    by-id route then answers 200 with that same row. *)
Theorem places_create_valid_body :
  forall (schema : Json -> Parsed InsertPlace) (JSON_stringify : Json -> string)
         (body : Json) (input : InsertPlace) (s : Store) (now : Z),
    body <> JNull ->
    schema (normalized_place_body JSON_stringify body) = Success input ->
    in_sequence place_id (tbl_places s) ->
    exists p s',
      places_create schema JSON_stringify body (healthy s now) =
        (Resolved {| status_code := 201; payload := Value (Some p) |},
         healthy s' now) /\
      p = stored_place (next_id (tbl_places s)) now input /\
      rows (tbl_places s') = (rows (tbl_places s) ++ [p])%list /\
      places_get (place_id p) (healthy s' now) =
        (Resolved {| status_code := 200; payload := Value p |}, healthy s' now).
Proof.
  intros schema JSON_stringify body input s now Hbody Hok Hseq.
  do 2 eexists. split.
  { rewrite places_create_parses_normalized by exact Hbody.
    unfold try_catch, await at 1, parse. rewrite Hok. unfold resolve at 1.
    unfold await. rewrite createPlace_healthy. reflexivity. }
  split; [reflexivity|]. split; [reflexivity|].
  unfold places_get. erewrite await_resolved by apply getPlace_healthy.
  simpl. unfold eq_id; simpl.
  rewrite (@select_inserted Place place_id (tbl_places s)
             (stored_place (next_id (tbl_places s)) now input) eq_refl Hseq).
  reflexivity.
Qed.

Lemma places_create_valid_body_witness :
  exists p s',
    places_create demo_place_schema demo_stringify
      (JObject [("name", JString "Lagoon");
                ("coordinates", JObject [("lat", JNumber (number_of_Z 7))]);
                ("amenities", JArray [JString "Boats"])])
      (healthy demo_store 1700000100) =
      (Resolved {| status_code := 201; payload := Value (Some p) |},
       healthy s' 1700000100) /\
    place_id p = 2 /\
    place_amenities p = demo_stringify (JArray [JString "Boats"]) /\
    places_get 2 (healthy s' 1700000100) =
      (Resolved {| status_code := 200; payload := Value p |},
       healthy s' 1700000100).
Proof.
  destruct (places_create_valid_body demo_place_schema demo_stringify
              (JObject [("name", JString "Lagoon");
                        ("coordinates", JObject [("lat", JNumber (number_of_Z 7))]);
                        ("amenities", JArray [JString "Boats"])])
              _ demo_store 1700000100 ltac:(discriminate) eq_refl
              (proj1 (proj2 demo_store_well_sequenced)))
    as (p & s' & Hrun & Hp & _ & Hget).
  exists p, s'. split; [exact Hrun|].
  rewrite Hp in *. repeat split. exact Hget.
Defined.

Lemma places_create_invalid_body_witness :
  places_create demo_place_schema demo_stringify (JObject [])
    (healthy demo_store 1700000100) =
  (Resolved {| status_code := 400; payload := Message "Required" |},
   healthy demo_store 1700000100).
Proof.
  apply (@places_create_invalid_body demo_place_schema demo_stringify
           (JObject []) {| issue_path := ["name"]; issue_message := "Required" |}
           [{| issue_path := ["location"]; issue_message := "Required" |}]
           (healthy demo_store 1700000100)).
  - discriminate.
  - reflexivity.
Defined.

(** X12.  The places create route answers 400 for nothing but a
    validation error: a [null] body makes it reject with the type error
    of the property read, and an outage of the data store on an accepted
    body makes it reject with the failure of the data store, the store
    left as it was. *)
Theorem places_create_rethrows_other_errors :
  forall (schema : Json -> Parsed InsertPlace) (JSON_stringify : Json -> string),
    (forall w, places_create schema JSON_stringify JNull w =
               (Rejected TypeError, w))
    /\
    (forall body input w later,
       body <> JNull ->
       schema (normalized_place_body JSON_stringify body) = Success input ->
       outages w = true :: later ->
       places_create schema JSON_stringify body w =
         (Rejected StoreFailure,
          {| store := store w; clock := clock w; outages := later |})).
Proof.
  intros schema JSON_stringify. split.
  - intros w. reflexivity.
  - intros body input w later Hbody Hok Hout.
    assert (Hcreate : createPlace input w =
                      (Rejected StoreFailure,
                       {| store := store w; clock := clock w;
                          outages := later |})).
    { unfold createPlace.
      erewrite await_rejected by (apply round_trip_outage; exact Hout).
      reflexivity. }
    rewrite places_create_parses_normalized by exact Hbody.
    unfold try_catch, await at 1, parse. rewrite Hok. unfold resolve at 1.
    erewrite await_rejected by exact Hcreate.
    reflexivity.
Qed.

Lemma places_create_rethrows_other_errors_witness :
  places_create demo_place_schema demo_stringify JNull
    (healthy demo_store 1700000100) =
    (Rejected TypeError, healthy demo_store 1700000100) /\
  places_create demo_place_schema demo_stringify
    (JObject [("name", JString "Lagoon")])
    {| store := demo_store; clock := 1700000100; outages := [true] |} =
    (Rejected StoreFailure, healthy demo_store 1700000100).
Proof.
  split.
  - apply (proj1 (places_create_rethrows_other_errors
                    demo_place_schema demo_stringify)).
  - eapply (proj2 (places_create_rethrows_other_errors
                     demo_place_schema demo_stringify)
              (JObject [("name", JString "Lagoon")]) _
              {| store := demo_store; clock := 1700000100; outages := [true] |}
              []).
    + discriminate.
    + reflexivity.
    + reflexivity.
Defined.

Lemma member_set_member_same (k : string) (v : Json)
    (members : list (string * Json)) :
  member k (set_member k v members) = Some v.
Proof.
  induction members as [|[k' v'] rest IH]; simpl.
  - rewrite String.eqb_refl. reflexivity.
  - destruct (k' =? k)%string eqn:Hk; simpl.
    + rewrite String.eqb_refl. reflexivity.
    + rewrite Hk. exact IH.
Qed.

Lemma member_set_member_other (k k' : string) (v : Json)
    (members : list (string * Json)) :
  k' <> k -> member k' (set_member k v members) = member k' members.
Proof.
  intros Hneq. induction members as [|[k0 v0] rest IH]; simpl.
  - replace (k =? k')%string with false
      by (symmetry; apply String.eqb_neq; congruence).
    reflexivity.
  - destruct (k0 =? k)%string eqn:Hk; simpl.
    + apply String.eqb_eq in Hk. subst k0.
      replace (k =? k')%string with false
        by (symmetry; apply String.eqb_neq; congruence).
      reflexivity.
    + destruct (k0 =? k')%string; [reflexivity | exact IH].
Qed.

Lemma normalized_place_body_twice (JSON_stringify : Json -> string) (body : Json) :
  normalized_place_body JSON_stringify
    (normalized_place_body JSON_stringify body) =
  normalized_place_body JSON_stringify body.
Proof.
  destruct body as [| b | x | str | items | members]; try reflexivity.
  pose (members1 :=
          match member "coordinates" members with
          | Some (JArray items) =>
              set_member "coordinates"
                (JString (JSON_stringify (JArray items))) members
          | Some (JObject ms) =>
              set_member "coordinates"
                (JString (JSON_stringify (JObject ms))) members
          | _ => members
          end).
  pose (members2 :=
          match member "amenities" members1 with
          | Some (JArray items) =>
              set_member "amenities"
                (JString (JSON_stringify (JArray items))) members1
          | _ => members1
          end).
  assert (Hshape :
            normalized_place_body JSON_stringify (JObject members) =
            JObject members2).
  { unfold normalized_place_body, members2, members1. cbv zeta.
    destruct (member "amenities" _) as [[| b | x | str | items | ms]|];
      reflexivity. }
  assert (Hc1 : forall v, member "coordinates" members1 = Some v ->
                          match v with
                          | JArray _ | JObject _ => False
                          | _ => True
                          end).
  { intros v. unfold members1.
    destruct (member "coordinates" members) as [[| b | x | str | items | ms]|]
      eqn:Hm; intros H;
      try rewrite member_set_member_same in H; try rewrite Hm in H;
      inversion H; exact I. }
  assert (Hc2 : member "coordinates" members2 = member "coordinates" members1).
  { unfold members2.
    destruct (member "amenities" members1) as [[| b | x | str | items | ms]|];
      try reflexivity.
    apply member_set_member_other. discriminate. }
  assert (Ha2 : forall v, member "amenities" members2 = Some v ->
                          match v with
                          | JArray _ => False
                          | _ => True
                          end).
  { intros v. unfold members2.
    destruct (member "amenities" members1) as [[| b | x | str | items | ms]|]
      eqn:Hm; intros H;
      try rewrite member_set_member_same in H; try rewrite Hm in H;
      inversion H; exact I. }
  rewrite Hshape.
  unfold normalized_place_body. cbv zeta.
  rewrite Hc2.
  destruct (member "coordinates" members1) as [[| b | x | str | items | ms]|]
    eqn:Hm1;
    try (exfalso; exact (Hc1 _ eq_refl));
    destruct (member "amenities" members2) as [[| b' | x' | str' | items' | ms']|]
      eqn:Hm2;
    try (exfalso; exact (Ha2 _ eq_refl));
    reflexivity.
Qed.

(** X13.  The places create route treats a body alike whether its
    coordinates and amenities come structured or already as their JSON
    text: a request carrying the normalized body gets, in every world,
    the very outcome of the request carrying the original one. *)
Theorem places_create_structured_or_text :
  forall (schema : Json -> Parsed InsertPlace) (JSON_stringify : Json -> string)
         (body : Json) (w : World),
    places_create schema JSON_stringify
      (normalized_place_body JSON_stringify body) w =
    places_create schema JSON_stringify body w.
Proof.
  intros schema JSON_stringify body w.
  destruct body as [| b | x | str | items | members]; try reflexivity.
  assert (Hobj : normalized_place_body JSON_stringify (JObject members) <> JNull).
  { unfold normalized_place_body.
    destruct (member "amenities" _) as [[| b | x | str | items | ms]|];
      discriminate. }
  rewrite places_create_parses_normalized by exact Hobj.
  rewrite normalized_place_body_twice.
  symmetry. apply places_create_parses_normalized. discriminate.
Qed.

Example places_create_structured_or_text_sample :
  normalized_place_body demo_stringify
    (JObject [("name", JString "Lagoon");
              ("coordinates", JObject [("lat", JNumber (number_of_Z 7))]);
              ("amenities", JArray [JString "Boats"; JString "Shade"])]) =
  JObject [("name", JString "Lagoon");
           ("coordinates",
            JString (demo_stringify (JObject [("lat", JNumber (number_of_Z 7))])));
           ("amenities",
            JString (demo_stringify (JArray [JString "Boats"; JString "Shade"])))].
Proof. reflexivity. Qed.

(** X14.  When the schema accepts the body and the store is reachable,
    the playlists create route answers 201 with the stored row, the
    validated input under the next identifier of the table, and the
    playlists listing route then includes that row. *)
Theorem playlists_create_valid_body :
  forall (schema : Json -> Parsed InsertPlaylist) (body : Json)
         (input : InsertPlaylist) (s : Store) (now : Z),
    schema body = Success input ->
    exists p s' l,
      playlists_create schema body (healthy s now) =
        (Resolved {| status_code := 201; payload := Value (Some p) |},
         healthy s' now) /\
      p = stored_playlist (next_id (tbl_playlists s)) now input /\
      playlists_list (healthy s' now) =
        (Resolved {| status_code := 200; payload := Value l |}, healthy s' now) /\
      In p l /\
      List.length l = S (List.length (rows (tbl_playlists s))).
Proof.
  intros schema body input s now Hok.
  do 3 eexists. split.
  { unfold playlists_create, await at 1, parse. rewrite Hok.
    unfold resolve at 1. unfold await. rewrite createPlaylist_healthy.
    reflexivity. }
  split; [reflexivity|]. split.
  { unfold playlists_list.
    erewrite await_resolved by apply getPlaylists_healthy. reflexivity. }
  simpl. split.
  - apply orderBy_desc_In, in_or_app. right. left. reflexivity.
  - rewrite orderBy_desc_length, length_app. simpl. lia.
Qed.

Lemma playlists_create_valid_body_witness :
  exists p s' l,
    playlists_create demo_playlist_schema
      (JObject [("name", JString "Lagoons")]) (healthy demo_store 1700000100) =
      (Resolved {| status_code := 201; payload := Value (Some p) |},
       healthy s' 1700000100) /\
    playlist_id p = 2 /\ playlist_name p = "Lagoons"%string /\
    playlists_list (healthy s' 1700000100) =
      (Resolved {| status_code := 200; payload := Value l |},
       healthy s' 1700000100) /\
    In p l /\ List.length l = 2%nat.
Proof.
  destruct (playlists_create_valid_body demo_playlist_schema
              (JObject [("name", JString "Lagoons")]) _ demo_store 1700000100
              eq_refl)
    as (p & s' & l & Hrun & Hp & Hlist & Hin & Hlen).
  exists p, s', l. split; [exact Hrun|].
  rewrite Hp in *. repeat split; assumption.
Defined.

(** ** Seeding only ever appends *)

Section Preservation.
Variable P : Store -> Prop.

Lemma preserves_resolve A (a : A) : preserves P (resolve a).
Proof. intros w H. exact H. Qed.

Lemma preserves_throw A (e : Exception) : preserves P (@throw A e).
Proof. intros w H. exact H. Qed.

Lemma preserves_field R A (k : R -> A) (o : option R) : preserves P (field k o).
Proof. destruct o; [apply preserves_resolve | apply preserves_throw]. Qed.

Lemma preserves_await A B (p : Promise A) (k : A -> Promise B) :
  preserves P p -> (forall a, preserves P (k a)) -> preserves P (await p k).
Proof.
  intros Hp Hk w Hw. unfold await.
  specialize (Hp w Hw). destruct (p w) as [[a|e] w']; simpl in *.
  - apply Hk. exact Hp.
  - exact Hp.
Qed.

Lemma preserves_try_catch A (p : Promise A) (handler : Exception -> Promise A) :
  preserves P p -> (forall e, preserves P (handler e)) ->
  preserves P (try_catch p handler).
Proof.
  intros Hp Hh w Hw. unfold try_catch.
  specialize (Hp w Hw). destruct (p w) as [[a|e] w']; simpl in *.
  - exact Hp.
  - apply Hh. exact Hp.
Qed.

Lemma preserves_round_trip A (q : Z -> Store -> A * Store) :
  (forall now s, P s -> P (snd (q now s))) -> preserves P (round_trip q).
Proof.
  intros Hq w Hw.
  destruct (round_trip_cases q w) as [H|H]; rewrite H; simpl.
  - exact Hw.
  - apply Hq. exact Hw.
Qed.

Hypothesis P_closed : closed_under_inserts P.

Lemma createUser_preserves v : preserves P (createUser v).
Proof.
  unfold createUser. apply preserves_await; [|intros; apply preserves_resolve].
  apply preserves_round_trip. intros now s. apply P_closed.
Qed.

Lemma createPlace_preserves v : preserves P (createPlace v).
Proof.
  unfold createPlace. apply preserves_await; [|intros; apply preserves_resolve].
  apply preserves_round_trip. intros now s. apply P_closed.
Qed.

Lemma createPlaylist_preserves v : preserves P (createPlaylist v).
Proof.
  unfold createPlaylist. apply preserves_await; [|intros; apply preserves_resolve].
  apply preserves_round_trip. intros now s. apply P_closed.
Qed.

Lemma createTrip_preserves v : preserves P (createTrip v).
Proof.
  unfold createTrip. apply preserves_await; [|intros; apply preserves_resolve].
  apply preserves_round_trip. intros now s. apply P_closed.
Qed.

Lemma createReview_preserves v : preserves P (createReview v).
Proof.
  unfold createReview. apply preserves_await; [|intros; apply preserves_resolve].
  apply preserves_round_trip. intros now s. apply P_closed.
Qed.

Lemma createPhoto_preserves v : preserves P (createPhoto v).
Proof.
  unfold createPhoto. apply preserves_await; [|intros; apply preserves_resolve].
  apply preserves_round_trip. intros now s. apply P_closed.
Qed.

Lemma getUsers_preserves : preserves P getUsers.
Proof.
  unfold getUsers, query. apply preserves_round_trip. intros now s H. exact H.
Qed.
End Preservation.

Ltac preserves_step :=
  first
    [ apply preserves_resolve
    | apply preserves_field
    | apply createUser_preserves; assumption
    | apply createPlace_preserves; assumption
    | apply createPlaylist_preserves; assumption
    | apply createTrip_preserves; assumption
    | apply createReview_preserves; assumption
    | apply createPhoto_preserves; assumption
    | apply preserves_await; [|intros ?] ].

Lemma seedDatabase_preserves (P : Store -> Prop) JSON_stringify :
  closed_under_inserts P -> preserves P (seedDatabase JSON_stringify).
Proof.
  intros HP. unfold seedDatabase. apply preserves_try_catch.
  - apply preserves_await; [apply getUsers_preserves|].
    intros users0. destruct (List.length users0 =? 0)%nat.
    + repeat preserves_step.
    + apply preserves_resolve.
  - intros e. apply preserves_resolve.
Qed.

Lemma table_extends_refl R (tb : Table R) : table_extends tb tb.
Proof. exists []. rewrite app_nil_r. reflexivity. Qed.

Lemma table_extends_insert R (tb before : Table R) (r : R) (n : Z) :
  table_extends tb before ->
  table_extends {| rows := rows tb ++ [r]; next_id := n |} before.
Proof.
  intros [added H]. exists (added ++ [r])%list. simpl.
  rewrite H, app_assoc. reflexivity.
Qed.

Lemma store_extends_refl (s : Store) : store_extends s s.
Proof. repeat split; apply table_extends_refl. Qed.

Lemma store_extends_closed (before : Store) :
  closed_under_inserts (fun s => store_extends s before).
Proof.
  unfold closed_under_inserts. repeat apply conj; intros v now s H;
    destruct H as (Hu & Hp & Hl & Ht & Hr & Hf);
    unfold store_extends; repeat apply conj; simpl; try assumption;
    apply table_extends_insert; assumption.
Qed.

(** X15.  Seeding only ever appends: in every world, whatever outages
    cut it short, each table after [seedDatabase] begins with the rows it
    held before, unchanged and in the same order. *)
Theorem seedDatabase_only_appends :
  forall (JSON_stringify : Json -> string) (w : World),
    store_extends (store (snd (seedDatabase JSON_stringify w))) (store w).
Proof.
  intros JSON_stringify w.
  apply (seedDatabase_preserves (fun s => store_extends s (store w))).
  - apply store_extends_closed.
  - apply store_extends_refl.
Qed.

(** ** A seeding cut short is never completed *)

Lemma seedDatabase_skips_when_users_exist JSON_stringify w :
  rows (tbl_users (store w)) <> [] ->
  store (snd (seedDatabase JSON_stringify w)) = store w.
Proof.
  intros Hrows. unfold seedDatabase, try_catch, await, getUsers.
  destruct (query_cases
              (fun s : Store => orderBy_desc user_joinedAt (select_from users s)) w)
    as [H|H]; rewrite H; simpl.
  - reflexivity.
  - unfold select_from; simpl.
    rewrite orderBy_desc_nonempty by exact Hrows. reflexivity.
Qed.

Lemma try_catch_swallowed_store A (p : Promise A) (a : A) w :
  store (snd (try_catch p (fun _ => resolve a) w)) = store (snd (p w)).
Proof.
  unfold try_catch. destruct (p w) as [[x|e] w']; reflexivity.
Qed.

Lemma users_nonempty_closed :
  closed_under_inserts (fun s => rows (tbl_users s) <> []).
Proof.
  unfold closed_under_inserts. repeat apply conj; intros v now s H; simpl;
    try exact H.
  intros Happ. apply app_eq_nil in Happ. destruct Happ as [_ Happ].
  discriminate Happ.
Qed.

(** X16.  The user table alone decides whether seeding runs.  When a
    first start on an empty user table gets through its first insert,
    the user table is no longer empty whatever happens to the inserts
    after it, and every later [seedDatabase] leaves the store exactly as
    that first start left it: a seeding cut short by an outage is never
    completed. *)
Theorem seedDatabase_cut_short_never_completed :
  forall (JSON_stringify : Json -> string) (s : Store) (now : Z)
         (later : list bool),
    rows (tbl_users s) = [] ->
    let w1 :=
      snd (seedDatabase JSON_stringify
             {| store := s; clock := now;
                outages := false :: false :: later |}) in
    rows (tbl_users (store w1)) <> [] /\
    forall w2 : World,
      store w2 = store w1 ->
      store (snd (seedDatabase JSON_stringify w2)) = store w1.
Proof.
  intros JSON_stringify s now later Hempty w1.
  assert (Hnonempty : rows (tbl_users (store w1)) <> []).
  { unfold w1, seedDatabase.
    rewrite try_catch_swallowed_store.
    unfold await at 1, getUsers, query, round_trip at 1. simpl.
    unfold select_from; simpl. rewrite Hempty. simpl.
    unfold await at 1, createUser at 1, await at 1, round_trip at 1. simpl.
    unfold resolve at 1. simpl.
    match goal with
    | |- rows (tbl_users (store (snd (?p ?w)))) <> [] =>
        assert (Hp : preserves (fun st => rows (tbl_users st) <> []) p);
        [ pose proof users_nonempty_closed as Hclosed; repeat preserves_step
        | apply (Hp w) ]
    end.
    simpl. intros Happ. apply app_eq_nil in Happ.
    destruct Happ as [_ Happ]. discriminate Happ. }
  split; [exact Hnonempty|].
  intros w2 Hw2. rewrite <- Hw2.
  apply seedDatabase_skips_when_users_exist. rewrite Hw2. exact Hnonempty.
Qed.

Lemma seedDatabase_cut_short_never_completed_witness :
  let w1 :=
    snd (seedDatabase demo_stringify
           {| store := empty_store; clock := 1700000000;
              outages := [false; false; true] |}) in
  rows (tbl_users (store w1)) <> [] /\
  rows (tbl_places (store w1)) = [] /\
  store (snd (seedDatabase demo_stringify (healthy (store w1) 1700000500))) =
    store w1.
Proof.
  destruct (seedDatabase_cut_short_never_completed demo_stringify empty_store
              1700000000 [true] eq_refl) as [Hnonempty Hlater].
  split; [exact Hnonempty|].
  split; [vm_compute; reflexivity|].
  apply Hlater. reflexivity.
Defined.

(** ** Updating a place *)

Lemma updatePlace_healthy id updates s now :
  supplies_nothing updates = false ->
  updatePlace id updates (healthy s now) =
  (Resolved (option_map (set_place_columns updates)
               (find (fun r => place_id r =? id) (rows (tbl_places s)))),
   healthy (write places (updated_table places (set_place_columns updates) id s) s)
           now).
Proof.
  intros Hsome. unfold updatePlace. rewrite Hsome.
  apply update_returning_first.
Qed.

(** X17.  On a reachable store, a PUT that supplies at least one column
    for an id no place carries changes nothing: [updatePlace] resolves
    to [undefined] and the route answers 404 with a message body. *)
Theorem places_update_absent_id :
  forall (s : Store) (now : Z) (id : Z) (updates : PartialInsertPlace),
    supplies_nothing updates = false ->
    ~ In id (map place_id (rows (tbl_places s))) ->
    updatePlace id updates (healthy s now) = (Resolved None, healthy s now) /\
    places_update id updates (healthy s now) =
      (Resolved {| status_code := 404; payload := Message "Place not found" |},
       healthy s now).
Proof.
  intros s now id updates Hsome Habs.
  assert (H : updatePlace id updates (healthy s now) =
              (Resolved None, healthy s now)).
  { rewrite updatePlace_healthy by exact Hsome.
    rewrite (find_absent (fun r => place_id r =? id))
      by (apply (eq_id_absent places); exact Habs).
    rewrite (updated_table_absent places) by exact Habs.
    rewrite write_read_places. reflexivity. }
  split; [exact H|].
  unfold places_update. erewrite await_resolved by exact H. reflexivity.
Qed.

Lemma places_update_absent_id_witness :
  places_update 9
    {| partial_place_name := Some "Harbour at dawn"%string;
       partial_place_description := None; partial_place_location := None;
       partial_place_category := None; partial_place_imageUrl := None;
       partial_place_rating := None; partial_place_status := None;
       partial_place_amenities := None; partial_place_coordinates := None |}
    (healthy demo_store 1700000100) =
  (Resolved {| status_code := 404; payload := Message "Place not found" |},
   healthy demo_store 1700000100).
Proof.
  apply (places_update_absent_id demo_store 1700000100 9).
  - reflexivity.
  - apply not_in_demo. reflexivity.
Defined.



(** ** Writes under an outage *)

Lemma insert_outage R I (t : TableRef R I) (v : I) w later :
  outages w = true :: later ->
  await (round_trip (insert_returning t v))
        (fun inserted => resolve (first inserted)) w =
  (Rejected StoreFailure,
   {| store := store w; clock := clock w; outages := later |}).
Proof.
  intros Hout.
  erewrite await_rejected by (apply round_trip_outage; exact Hout).
  reflexivity.
Qed.

Lemma update_outage R I (t : TableRef R I) (f : R -> R) (id : Z) w later :
  outages w = true :: later ->
  await (round_trip (fun _ : Z => update_where_returning t f (eq_id t id)))
        (fun updated => resolve (first updated)) w =
  (Rejected StoreFailure,
   {| store := store w; clock := clock w; outages := later |}).
Proof.
  intros Hout.
  erewrite await_rejected by (apply round_trip_outage; exact Hout).
  reflexivity.
Qed.

(** X19.  A write that meets an outage writes nothing and hides nothing:
    every create, update-status and delete of the storage class, the
    update of a place that supplies a column, and the DELETE and PATCH
    routes on top of them reject with the failure of the data store,
    having used up that one round trip and left the store as it was; no
    route turns the failure into a response. *)
Theorem writes_fail_cleanly :
  forall (w : World) (later : list bool),
    outages w = true :: later ->
    let failed : World :=
      {| store := store w; clock := clock w; outages := later |} in
    (forall v, createUser v w = (Rejected StoreFailure, failed)) /\
    (forall v, createPlace v w = (Rejected StoreFailure, failed)) /\
    (forall v, createPlaylist v w = (Rejected StoreFailure, failed)) /\
    (forall v, createTrip v w = (Rejected StoreFailure, failed)) /\
    (forall v, createReview v w = (Rejected StoreFailure, failed)) /\
    (forall v, createPhoto v w = (Rejected StoreFailure, failed)) /\
    (forall id status,
       updateUserStatus id status w = (Rejected StoreFailure, failed) /\
       users_updateStatus id status w = (Rejected StoreFailure, failed)) /\
    (forall id status,
       updatePlaylistStatus id status w = (Rejected StoreFailure, failed) /\
       playlists_updateStatus id status w = (Rejected StoreFailure, failed)) /\
    (forall id status,
       updateReviewStatus id status w = (Rejected StoreFailure, failed) /\
       moderation_reviews_action id status w = (Rejected StoreFailure, failed)) /\
    (forall id status,
       updatePhotoStatus id status w = (Rejected StoreFailure, failed) /\
       moderation_photos_action id status w = (Rejected StoreFailure, failed)) /\
    (forall id updates,
       supplies_nothing updates = false ->
       updatePlace id updates w = (Rejected StoreFailure, failed) /\
       places_update id updates w = (Rejected StoreFailure, failed)) /\
    (forall id,
       deleteUser id w = (Rejected StoreFailure, failed) /\
       users_delete id w = (Rejected StoreFailure, failed)) /\
    (forall id,
       deletePlace id w = (Rejected StoreFailure, failed) /\
       places_delete id w = (Rejected StoreFailure, failed)).
Proof.
  intros w later Hout failed.
  repeat apply conj.
  - intros v. apply insert_outage. exact Hout.
  - intros v. apply insert_outage. exact Hout.
  - intros v. apply insert_outage. exact Hout.
  - intros v. apply insert_outage. exact Hout.
  - intros v. apply insert_outage. exact Hout.
  - intros v. apply insert_outage. exact Hout.
  - intros id status.
    assert (H : updateUserStatus id status w = (Rejected StoreFailure, failed))
      by (apply update_outage; exact Hout).
    split; [exact H|].
    unfold users_updateStatus. erewrite await_rejected by exact H. reflexivity.
  - intros id status.
    assert (H : updatePlaylistStatus id status w =
                (Rejected StoreFailure, failed))
      by (apply update_outage; exact Hout).
    split; [exact H|].
    unfold playlists_updateStatus.
    erewrite await_rejected by exact H. reflexivity.
  - intros id status.
    assert (H : updateReviewStatus id status w = (Rejected StoreFailure, failed))
      by (apply update_outage; exact Hout).
    split; [exact H|].
    unfold moderation_reviews_action.
    erewrite await_rejected by exact H. reflexivity.
  - intros id status.
    assert (H : updatePhotoStatus id status w = (Rejected StoreFailure, failed))
      by (apply update_outage; exact Hout).
    split; [exact H|].
    unfold moderation_photos_action.
    erewrite await_rejected by exact H. reflexivity.
  - intros id updates Hsome.
    assert (H : updatePlace id updates w = (Rejected StoreFailure, failed)).
    { unfold updatePlace. rewrite Hsome. apply update_outage. exact Hout. }
    split; [exact H|].
    unfold places_update. erewrite await_rejected by exact H. reflexivity.
  - intros id.
    assert (H : deleteUser id w = (Rejected StoreFailure, failed))
      by (apply round_trip_outage; exact Hout).
    split; [exact H|].
    unfold users_delete. erewrite await_rejected by exact H. reflexivity.
  - intros id.
    assert (H : deletePlace id w = (Rejected StoreFailure, failed))
      by (apply round_trip_outage; exact Hout).
    split; [exact H|].
    unfold places_delete. erewrite await_rejected by exact H. reflexivity.
Qed.

Lemma writes_fail_cleanly_witness :
  users_delete 1
    {| store := demo_store; clock := 1700000100; outages := [true; false] |} =
    (Rejected StoreFailure,
     {| store := demo_store; clock := 1700000100; outages := [false] |}) /\
  moderation_reviews_action 1 "approved"
    {| store := demo_store; clock := 1700000100; outages := [true; false] |} =
    (Rejected StoreFailure,
     {| store := demo_store; clock := 1700000100; outages := [false] |}).
Proof.
  pose proof (writes_fail_cleanly
                {| store := demo_store; clock := 1700000100;
                   outages := [true; false] |} [false] eq_refl)
    as (_ & _ & _ & _ & _ & _ & _ & _ & Hreview & _ & _ & Hdelete & _).
  split.
  - apply Hdelete.
  - apply Hreview.
Defined.

(** ** The dashboard after a create *)

Lemma length_snoc A (l : list A) (x : A) :
  List.length (l ++ [x]) = S (List.length l).
Proof. rewrite length_app. simpl. lia. Qed.

Lemma filter_snoc_length A (keep : A -> bool) (l : list A) (x : A) :
  List.length (filter keep (l ++ [x])) =
  (List.length (filter keep l) + (if keep x then 1 else 0))%nat.
Proof.
  rewrite filter_app, length_app. simpl. destruct (keep x); reflexivity.
Qed.

(** X20.  On a reachable store the dashboard follows each create by
    exactly one step: a new trip, playlist or place raises its total by
    one; a new user raises [activeUsers] by one when its status is
    "active" and not at all otherwise; a new review raises
    [pendingReviews] by one when its status is "pending" and not at all
    otherwise; a new photo changes no count.  All other counts stay. *)
Theorem dashboard_after_create :
  forall (s : Store) (now : Z),
    let before := table_counts s in
    (forall v,
       fst (getDashboardStats (snd (createTrip v (healthy s now)))) =
       Resolved {| totalTrips := S (totalTrips before);
                   totalPlaylists := totalPlaylists before;
                   totalPlaces := totalPlaces before;
                   activeUsers := activeUsers before;
                   pendingReviews := pendingReviews before |}) /\
    (forall v,
       fst (getDashboardStats (snd (createPlaylist v (healthy s now)))) =
       Resolved {| totalTrips := totalTrips before;
                   totalPlaylists := S (totalPlaylists before);
                   totalPlaces := totalPlaces before;
                   activeUsers := activeUsers before;
                   pendingReviews := pendingReviews before |}) /\
    (forall v,
       fst (getDashboardStats (snd (createPlace v (healthy s now)))) =
       Resolved {| totalTrips := totalTrips before;
                   totalPlaylists := totalPlaylists before;
                   totalPlaces := S (totalPlaces before);
                   activeUsers := activeUsers before;
                   pendingReviews := pendingReviews before |}) /\
    (forall v,
       fst (getDashboardStats (snd (createUser v (healthy s now)))) =
       Resolved {| totalTrips := totalTrips before;
                   totalPlaylists := totalPlaylists before;
                   totalPlaces := totalPlaces before;
                   activeUsers :=
                     (activeUsers before +
                      (if (new_user_status v =? "active")%string then 1 else 0))
                       %nat;
                   pendingReviews := pendingReviews before |}) /\
    (forall v,
       fst (getDashboardStats (snd (createReview v (healthy s now)))) =
       Resolved {| totalTrips := totalTrips before;
                   totalPlaylists := totalPlaylists before;
                   totalPlaces := totalPlaces before;
                   activeUsers := activeUsers before;
                   pendingReviews :=
                     (pendingReviews before +
                      (if (new_review_status v =? "pending")%string
                       then 1 else 0))%nat |}) /\
    (forall v,
       fst (getDashboardStats (snd (createPhoto v (healthy s now)))) =
       Resolved before).
Proof.
  intros s now before. unfold before. repeat apply conj; intros v.
  - rewrite createTrip_healthy. simpl snd.
    rewrite getDashboardStats_healthy. unfold table_counts; simpl.
    rewrite length_snoc. reflexivity.
  - rewrite createPlaylist_healthy. simpl snd.
    rewrite getDashboardStats_healthy. unfold table_counts; simpl.
    rewrite length_snoc. reflexivity.
  - rewrite createPlace_healthy. simpl snd.
    rewrite getDashboardStats_healthy. unfold table_counts; simpl.
    rewrite length_snoc. reflexivity.
  - rewrite createUser_healthy. simpl snd.
    rewrite getDashboardStats_healthy. unfold table_counts; simpl.
    rewrite filter_snoc_length. reflexivity.
  - rewrite createReview_healthy. simpl snd.
    rewrite getDashboardStats_healthy. unfold table_counts; simpl.
    rewrite filter_snoc_length. reflexivity.
  - rewrite createPhoto_healthy. simpl snd.
    rewrite getDashboardStats_healthy. reflexivity.
Qed.

(** ** Identifiers stay in sequence *)

Lemma updatePlace_keeps_sequence id updates :
  keeps_sequence (updatePlace id updates).
Proof.
  unfold updatePlace. destruct (supplies_nothing updates).
  - apply keeps_sequence_throw.
  - repeat sequence_step.
    apply in_sequence_update; [reflexivity | assumption].
Qed.


